(** * Suffolk Village Signs: the build script's matching pipeline

    A shallow embedding of [scripts/build.py]: EXIF coordinate
    conversion, photo deduplication, nearest-settlement matching, the
    assignment loop of [build] and the distance-sorted CSV.

    Conventions of the embedding.
    - Python floats are idealised as exact rationals ([Q]); the only
      non-rational float the script creates itself, [float("inf")], is
      the constructor [Inf] of [ext].
    - A Python exception is a [Raise] in the [result] monad.
    - External collaborators (geopy's [geodesic], [datetime.strptime] and
      [strftime], Pillow's [float()] of an [IFDRational]) are section
      variables: the script's logic is verified for every behaviour of
      theirs, and only the facts a statement needs are assumed.
    - File and network I/O is input/output data: the loaded photos and
      the gazetteer are arguments of [build], the JSON document, the CSV
      rows and the written photo files are its result. *)

From Stdlib Require Import QArith Qabs Qround Lqa.
From stdpp Require Import gmap strings list sorting.

Local Open Scope Q_scope.

(** ** Exceptions *)

Inductive exn : Type :=
| TypeError | IndexError | KeyError | ZeroDivisionError | ValueError.

Inductive result (A : Type) : Type :=
| Ok (a : A)
| Raise (e : exn).
Arguments Ok {A} a.
Arguments Raise {A} e.

#[global] Instance result_ret : MRet result := λ A a, Ok a.
#[global] Instance result_bind : MBind result := λ A B k r,
  match r with
  | Ok a => k a
  | Raise e => Raise e
  end.

#[global] Instance result_fmap : FMap result := λ A B f r,
  match r with
  | Ok a => Ok (f a)
  | Raise e => Raise e
  end.

(** [seq[i]] on a Python sequence. *)
Definition getitem {A : Type} (l : list A) (i : nat) : result A :=
  match l !! i with
  | Some x => Ok x
  | None => Raise IndexError
  end.

(** ** Configuration *)

Definition HOME_COORDS : Q * Q := (522355 # 10000, 9014 # 10000).
Definition DEDUP_RADIUS_M : Q := 50.
Definition MATCH_RADIUS_KM : Q := 15 # 10.

(** ** Floats: comparisons *)

Definition Qltb (x y : Q) : bool := negb (Qle_bool y x).

(** A float that may be [float("inf")]. *)
Inductive ext : Type :=
| Fin (q : Q)
| Inf.

Definition ext_ltb (x y : ext) : bool :=
  match x, y with
  | Fin a, Fin b => Qltb a b
  | Fin _, Inf => true
  | Inf, _ => false
  end.

Definition ext_leb (x y : ext) : bool :=
  match x, y with
  | Fin a, Fin b => Qle_bool a b
  | _, Inf => true
  | Inf, Fin _ => false
  end.

(** ** EXIF helpers *)

(** The values Pillow hands out for a numeric EXIF field. *)
Inductive value : Type :=
| VRational (num den : Z)   (* has [numerator] and [denominator]: IFDRational *)
| VTuple (items : list Q)   (* a plain tuple of numbers, e.g. [(num, den)] *)
| VNum (x : Q)              (* a plain float *)
| VNone.                    (* anything [float()] rejects *)

(** ** Data *)

(** [datetime] values are counted in microseconds from [datetime.min]. *)
Definition datetime : Type := N.
Definition datetime_min : datetime := 0%N.

(** A loaded photo. [path] is the file name's stem; the decoded image
    ([img]) is an opaque handle that only flows into [save_web_photo]
    and is left out. *)
Record photo : Type := Photo {
  path : string;
  coords : Q * Q;
  taken : datetime;   (* the "datetime" key *)
}.

Record settlement : Type := Settlement {
  name : string;
  lat : Q;
  lon : Q;
  place : string;
}.

Record visited_entry : Type := VisitedEntry {
  v_name : string;
  v_lat : Q;
  v_lon : Q;
  v_photo : string;
  v_date : option string;
}.

Record unvisited_entry : Type := UnvisitedEntry {
  u_name : string;
  u_lat : Q;
  u_lon : Q;
  u_distance_km : Q;
}.

Record stats : Type := Stats {
  stats_visited : nat;
  stats_total : nat;
  stats_generated : string;
}.

(** The document written to [data.json]. *)
Record data : Type := Data {
  data_visited : list visited_entry;
  data_unvisited : list unvisited_entry;
  data_stats : stats;
}.

(** Everything [build] writes: the JSON document, the CSV rows below the
    header, and the photo files saved, in order. *)
Record build_output : Type := BuildOutput {
  out_data : data;
  out_csv : list (string * Q);
  out_photos : list string;
}.

(** geopy's [Distance] object. *)
Record Distance : Type := { km : Q }.
Definition meters (d : Distance) : Q := km d * 1000.

(** ** Fixtures for the examples

    Stand-ins for the external collaborators: a flat grid at 111 km per
    degree for [geodesic], the exact quotient for an [IFDRational], a
    parser that accepts nothing and a formatter that prints one date. *)

Definition grid_geodesic (p q : Q * Q) : Distance :=
  {| km := 111 * (Qabs (p.1 - q.1) + Qabs (p.2 - q.2)) |}.

Definition exact_quotient (n d : Z) : result Q :=
  Ok (inject_Z n / inject_Z d).

Definition no_strptime (val : string) : result datetime := Raise ValueError.

Definition fixed_strftime (t : datetime) : string := "2024-06-01".

Definition acton : settlement := Settlement "Acton" 52 1 "village".
Definition bures : settlement := Settlement "Bures" 53 1 "village".
(** A second place that is also called Acton. *)
Definition acton_again : settlement := Settlement "Acton" 54 1 "hamlet".

Definition at_acton : photo := Photo "IMG_1" (52, 1) 5%N.
Definition by_acton : photo := Photo "IMG_2" (52 + (1 # 1000), 1) 7%N.
Definition at_bures_undated : photo := Photo "IMG_3" (53, 1) 0%N.
Definition far_away : photo := Photo "IMG_4" (60, 1) 9%N.

(** ** What the loader and the gazetteer fetch read

    The GPS IFD as Pillow decodes it, split by the type of its values:
    the text tags (the hemisphere references 1 and 3 among them) and the
    rational tags (the coordinates 2 and 4 among them), each coordinate a
    sequence of numeric values. A rational tag that holds a single value
    is handed out as that value, not as a sequence of one: a block with
    such a coordinate is not a value of this type (indexing the scalar is
    a TypeError, which [extract_gps] turns into "no coordinates"). *)
Record gps_ifd : Type := GpsIfd {
  gps_refs : gmap Z string;
  gps_seqs : gmap Z (list value);
}.

(** A decoded image, as the four things the script asks of it. *)
Record image : Type := Image {
  img_gps : result gps_ifd;                  (* img.getexif().get_ifd(0x8825) *)
  img_legacy_gps : result gps_ifd;           (* (img._getexif() or {}).get(34853, {}) *)
  img_exif : result (gmap Z string);         (* img.getexif() *)
  img_legacy_exif : result (gmap Z string);  (* img._getexif() or {} *)
}.

(** A path of [directory.iterdir()] with the result of [Image.open]. *)
Record dir_entry : Type := DirEntry {
  entry_name : string;     (* path.name *)
  entry_stem : string;     (* path.stem *)
  entry_suffix : string;   (* path.suffix *)
  entry_open : result image;
}.

(** An element of the Overpass response. *)
Record element : Type := Element {
  el_tags : option (gmap string string);
  el_lat : option Q;
  el_lon : option Q;
}.

Definition SUPPORTED : gset string :=
  {[ ".heic"; ".heif"; ".jpg"; ".jpeg"; ".png" ]}%string.

(** [str.lower()]; file names are byte strings here and only the ASCII
    letters change, which is all that matters for a comparison with the
    ASCII suffixes of [SUPPORTED]. *)
Definition lower_char (c : Ascii.ascii) : Ascii.ascii :=
  let n := Ascii.nat_of_ascii c in
  if (65 <=? n)%nat && (n <=? 90)%nat then Ascii.ascii_of_nat (n + 32) else c.

Fixpoint lower (s : string) : string :=
  match s with
  | EmptyString => EmptyString
  | String c s' => String (lower_char c) (lower s')
  end.

(** [d[k]] on a dict. *)
Definition dict_getitem `{Countable K} {V : Type} (d : gmap K V) (k : K)
  : result V :=
  match d !! k with
  | Some v => Ok v
  | None => Raise KeyError
  end.

(** [try: r except Exception: fallback]. *)
Definition or_else {A : Type} (r fallback : result A) : result A :=
  match r with
  | Ok a => Ok a
  | Raise _ => fallback
  end.

(** [sorted(directory.iterdir())]: paths of one directory compare by
    their names. *)
Fixpoint insert_path (e : dir_entry) (l : list dir_entry) : list dir_entry :=
  match l with
  | [] => [e]
  | y :: l' =>
      if String.leb (entry_name e) (entry_name y) then e :: l
      else y :: insert_path e l'
  end.

Definition sorted_paths (l : list dir_entry) : list dir_entry :=
  foldr insert_path [] l.

(** The body of the [for el in elements] loop of [fetch_settlements]:
    the settlement to append, if any. *)
Definition settlement_of_element (el : element) : result (option settlement) :=
  let tags := default ∅ (el_tags el) in
  match tags !! "name"%string with
  | Some nm =>
      if bool_decide (nm ≠ ""%string) then
        la ← from_option Ok (Raise KeyError) (el_lat el);
        lo ← from_option Ok (Raise KeyError) (el_lon el);
        Ok (Some {| name := nm; lat := la; lon := lo;
                    place := default ""%string (tags !! "place"%string) |})
      else Ok None
  | None => Ok None
  end.

(** The list [fetch_settlements] builds from the response's elements. *)
Fixpoint settlements_of_elements (settlements : list settlement)
  (elements : list element) : result (list settlement) :=
  match elements with
  | [] => Ok settlements
  | el :: rest =>
      s ← settlement_of_element el;
      settlements_of_elements
        (match s with Some x => settlements ++ [x] | None => settlements end)
        rest
  end.

(** The name an element gives its settlement: the [name] tag when it is
    there and not empty. *)
Definition element_name (el : element) : option string :=
  match default ∅ (el_tags el) !! "name"%string with
  | Some nm => if bool_decide (nm ≠ ""%string) then Some nm else None
  | None => None
  end.

(** A named element without a latitude or a longitude. *)
Definition lacks_position (el : element) : Prop :=
  is_Some (element_name el) ∧ (el_lat el = None ∨ el_lon el = None).

#[global] Instance Qeq_decision : RelDecision Qeq := Qeq_dec.

(** Fixtures for the loader. *)
Definition acton_ifd : gps_ifd :=
  GpsIfd {[ 1%Z := "N"%string; 3%Z := "E"%string ]}
         {[ 2%Z := [VTuple [52; 1]; VTuple [0; 1]; VTuple [0; 1]];
            4%Z := [VTuple [1; 1]; VTuple [0; 1]; VTuple [0; 1]] ]}.

Definition short_ifd : gps_ifd :=
  GpsIfd ∅ {[ 2%Z := [VNum 52; VNum 0]; 4%Z := [VNum 1; VNum 0; VNum 0] ]}.

Definition acton_image : image :=
  Image (Ok acton_ifd) (Raise KeyError) (Ok ∅) (Raise KeyError).

Definition acton_file : dir_entry :=
  DirEntry "IMG_1.HEIC" "IMG_1" ".HEIC" (Ok acton_image).

Definition notes_file : dir_entry :=
  DirEntry "notes.txt" "notes" ".txt" (Raise ValueError).

Definition broken_file : dir_entry :=
  DirEntry "IMG_0.jpg" "IMG_0" ".jpg" (Raise ValueError).

Definition no_latitude_ifd : gps_ifd := GpsIfd {[ 1%Z := "N"%string ]} ∅.

Definition again_at_acton : photo := Photo "IMG_5" (52 + (1 # 10000), 1) 8%N.

(** A parser that knows one timestamp. *)
Definition toy_strptime (val : string) : result datetime :=
  if bool_decide (val = "2024:06:01 10:00:00"%string) then Ok 5%N
  else Raise ValueError.

Definition dated_exif : gmap Z string :=
  {[ 36867%Z := "yesterday"%string;
     36868%Z := "2024:06:01 10:00:00"%string ]}.

(** An image whose [getexif()] raises and whose legacy block is dated. *)
Definition dated_image : image :=
  Image (Ok acton_ifd) (Raise KeyError) (Raise ValueError) (Ok dated_exif).

Definition response : list element :=
  [ Element (Some {[ "name"%string := "Acton"%string;
                     "place"%string := "village"%string ]})
            (Some 52) (Some 1);
    Element None (Some 0) (Some 0);
    Element (Some {[ "name"%string := "Bures"%string ]}) (Some 53) (Some 1) ].

Section Pipeline.

Set Default Proof Using "Type".

(** [float(val)] of an object with both attributes is the object's own
    [__float__] (Pillow's, for an [IFDRational]). *)
Variable float_of_rational : Z → Z → result Q.
(** [geopy.distance.geodesic], on coordinates it accepts: geopy raises
    ValueError for a latitude outside [-90, 90], which no definition here
    models. *)
Variable geodesic : Q * Q → Q * Q → Distance.
(** [datetime.strptime(val, "%Y:%m:%d %H:%M:%S")]. *)
Variable strptime : string → result datetime.
(** [dt.strftime("%Y-%m-%d")]. *)
Variable strftime : datetime → string.

Definition _to_float (val : value) : result Q :=
  match val with
  | VRational n d => float_of_rational n d
  | VTuple [a; b] => if negb (Qeq_bool b 0) then Ok (a / b) else Ok 0
  | VTuple _ => Raise TypeError
  | VNum x => Ok x
  | VNone => Raise TypeError
  end.

(** [ref in ("S", "W")]. *)
Definition in_SW (ref : string) : bool :=
  bool_decide (ref = "S"%string) || bool_decide (ref = "W"%string).

Definition _dms_to_decimal (dms : list value) (ref : string) : result Q :=
  d ← getitem dms 0 ≫= _to_float;
  m ← getitem dms 1 ≫= _to_float;
  s ← getitem dms 2 ≫= _to_float;
  let dec := d + m / 60 + s / 3600 in
  Ok (if in_SW ref then - dec else dec).

(** The tag loop of [extract_datetime]: the first tag whose value is
    truthy and parses wins; a [ValueError] moves on to the next tag. *)
Fixpoint extract_datetime_from (exif : gmap Z string) (tags : list Z)
  : result datetime :=
  match tags with
  | [] => Ok datetime_min
  | tag :: rest =>
      match exif !! tag with
      | Some val =>
          if bool_decide (val ≠ ""%string) then
            match strptime val with
            | Ok t => Ok t
            | Raise ValueError => extract_datetime_from exif rest
            | Raise e => Raise e
            end
          else extract_datetime_from exif rest
      | None => extract_datetime_from exif rest
      end
  end.

Definition extract_datetime (exif : gmap Z string) : result datetime :=
  extract_datetime_from exif [36867; 36868; 306]%Z.

(** ** Deduplication *)

(** The inner [for cluster in clusters] loop with its [break]: the
    updated cluster list and the [placed] flag. *)
Fixpoint place_photo (ph : photo) (clusters : list (list photo))
  : result (list (list photo) * bool) :=
  match clusters with
  | [] => Ok ([], false)
  | cluster :: others =>
      rep ← getitem cluster 0;
      if Qle_bool (meters (geodesic (coords ph) (coords rep))) DEDUP_RADIUS_M
      then Ok ((cluster ++ [ph]) :: others, true)
      else
        '(others', placed) ← place_photo ph others;
        Ok (cluster :: others', placed)
  end.

Definition add_photo (clusters : list (list photo)) (ph : photo)
  : result (list (list photo)) :=
  '(clusters', placed) ← place_photo ph clusters;
  Ok (if (placed : bool) then clusters' else clusters' ++ [[ph]]).

Fixpoint cluster_photos (clusters : list (list photo)) (photos : list photo)
  : result (list (list photo)) :=
  match photos with
  | [] => Ok clusters
  | ph :: rest =>
      clusters' ← add_photo clusters ph;
      cluster_photos clusters' rest
  end.

(** [max(c, key=...)]: the running maximum is replaced only by a strictly
    larger key, so the first maximal element is returned. *)
Fixpoint max_from {A : Type} (key : A → N) (best : A) (rest : list A) : A :=
  match rest with
  | [] => best
  | x :: rest' =>
      if (key best <? key x)%N then max_from key x rest'
      else max_from key best rest'
  end.

Definition py_max {A : Type} (key : A → N) (l : list A) : result A :=
  match l with
  | [] => Raise ValueError
  | x :: rest => Ok (max_from key x rest)
  end.

Definition deduplicate (photos : list photo) : result (list photo) :=
  clusters ← cluster_photos [] photos;
  mapM (py_max taken) clusters.

(** ** Matching *)

Definition nearest_step (coords : Q * Q) (st : option settlement * ext)
  (s : settlement) : option settlement * ext :=
  let d := km (geodesic coords (lat s, lon s)) in
  if ext_ltb (Fin d) st.2 then (Some s, Fin d) else st.

Definition nearest_settlement (coords : Q * Q) (settlements : list settlement)
  : option settlement * option ext :=
  let '(best, best_dist) := foldl (nearest_step coords) (None, Inf) settlements in
  if ext_leb best_dist (Fin MATCH_RADIUS_KM) then (best, Some best_dist)
  else (None, None).

(** ** Main build *)

(** The state of the matching loop; [written] lists the files saved by
    [save_web_photo]. *)
Record match_state : Type := MatchState {
  visited_names : gset string;
  visited : list visited_entry;
  written : list string;
}.

Definition match_init : match_state := MatchState ∅ [] [].

(** The visited entry and the file name [build] derives from a photo
    matched to the settlement called [nm]. *)
Definition out_name (ph : photo) : string := (path ph +:+ ".jpg")%string.

Definition visited_entry_of (ph : photo) (nm : string) : visited_entry :=
  let date_str :=
    if bool_decide (taken ph ≠ datetime_min) then Some (strftime (taken ph))
    else None in
  {| v_name := nm;
     v_lat := (coords ph).1;
     v_lon := (coords ph).2;
     v_photo := ("photos/" +:+ out_name ph)%string;
     v_date := date_str |}.

Definition match_step (settlements : list settlement) (st : match_state)
  (ph : photo) : match_state :=
  match nearest_settlement (coords ph) settlements with
  | (None, _) => st
  | (Some s, _) =>
      let nm := name s in
      if bool_decide (nm ∈ visited_names st) then st
      else
        {| visited_names := {[nm]} ∪ visited_names st;
           visited := visited st ++ [visited_entry_of ph nm];
           written := written st ++ [out_name ph] |}
  end.

Definition match_photos (settlements : list settlement) (photos : list photo)
  : match_state :=
  foldl (match_step settlements) match_init photos.

(** [round(x)] to the nearest integer, halves to even. *)
Definition round_half_even (x : Q) : Z :=
  let f := Qfloor x in
  let r := x - inject_Z f in
  if Qltb r (1 # 2) then f
  else if Qltb (1 # 2) r then (f + 1)%Z
  else if Z.even f then f else (f + 1)%Z.

(** [round(d, ndigits)]. *)
Definition round (d : Q) (ndigits : nat) : Q :=
  let scale := inject_Z (10 ^ Z.of_nat ndigits) in
  inject_Z (round_half_even (d * scale)) / scale.

Definition unvisited_entry_of (s : settlement) : unvisited_entry :=
  let d := km (geodesic HOME_COORDS (lat s, lon s)) in
  {| u_name := name s; u_lat := lat s; u_lon := lon s;
     u_distance_km := round d 1 |}.

Definition unvisited_of (names : gset string) (settlements : list settlement)
  : list unvisited_entry :=
  unvisited_entry_of <$> filter (λ s, name s ∉ names) settlements.

(** [sorted(l, key=...)]: a stable sort, as an insertion sort that puts an
    element in front of the first one whose key is not smaller. *)
Fixpoint insert_by {A : Type} (key : A → Q) (x : A) (l : list A) : list A :=
  match l with
  | [] => [x]
  | y :: l' =>
      if Qle_bool (key x) (key y) then x :: l
      else y :: insert_by key x l'
  end.

Definition sorted {A : Type} (key : A → Q) (l : list A) : list A :=
  foldr (insert_by key) [] l.

Definition csv_row (u : unvisited_entry) : string * Q :=
  (u_name u, u_distance_km u).

(** [build], from the loaded photos and the loaded gazetteer on;
    [today] is [datetime.now().strftime("%Y-%m-%d")]. *)
Definition build (raw : list photo) (settlements : list settlement)
  (today : string) : result build_output :=
  photos ← deduplicate raw;
  let st := match_photos settlements photos in
  let unvisited := unvisited_of (visited_names st) settlements in
  let data :=
    {| data_visited := visited st;
       data_unvisited := unvisited;
       data_stats :=
         {| stats_visited := length (visited st);
            stats_total := length (visited st) + length unvisited;
            stats_generated := today |} |} in
  let sorted_unvisited := sorted u_distance_km unvisited in
  Ok {| out_data := data;
        out_csv := csv_row <$> sorted_unvisited;
        out_photos := written st |}.

(** ** Loading *)

(** The exceptions [extract_gps] turns into "no coordinates". *)
Definition caught_by_extract_gps (e : exn) : bool :=
  match e with
  | KeyError | TypeError | ZeroDivisionError => true
  | IndexError | ValueError => false
  end.

(** [extract_gps] from the GPS IFD on. *)
Definition extract_gps_from (gps : gps_ifd) : result (option (Q * Q)) :=
  if (size (gps_refs gps) + size (gps_seqs gps) =? 0)%nat then Ok None
  else
    match
      lat_dms ← dict_getitem (gps_seqs gps) 2%Z;
      la ← _dms_to_decimal lat_dms (default "N"%string (gps_refs gps !! 1%Z));
      lon_dms ← dict_getitem (gps_seqs gps) 4%Z;
      lo ← _dms_to_decimal lon_dms (default "E"%string (gps_refs gps !! 3%Z));
      Ok (la, lo)
    with
    | Ok c => Ok (Some c)
    | Raise e => if caught_by_extract_gps e then Ok None else Raise e
    end.

Definition extract_gps (img : image) : result (option (Q * Q)) :=
  gps ← or_else (img_gps img) (img_legacy_gps img);
  extract_gps_from gps.

(** [extract_datetime] on the image: the EXIF block is read with the
    same fallback. *)
Definition extract_datetime_of (img : image) : result datetime :=
  exif ← or_else (img_exif img) (img_legacy_exif img);
  extract_datetime exif.

(** [path.suffix.lower() not in SUPPORTED], negated. *)
Definition supported (e : dir_entry) : bool :=
  bool_decide (lower (entry_suffix e) ∈ SUPPORTED).

(** The [try] block of [load_photos] for one path: the photo to append,
    [None] for a photo without GPS. *)
Definition load_one (e : dir_entry) : result (option photo) :=
  img ← entry_open e;
  gps ← extract_gps img;
  match gps with
  | None => Ok None
  | Some c =>
      t ← extract_datetime_of img;
      Ok (Some {| path := entry_stem e; coords := c; taken := t |})
  end.

Definition load_step (photos : list photo) (e : dir_entry) : list photo :=
  if negb (supported e) then photos
  else
    match load_one e with
    | Ok (Some ph) => photos ++ [ph]
    | Ok None => photos
    | Raise _ => photos
    end.

(** [load_photos]; [None] is a directory that does not exist. *)
Definition load_photos (directory : option (list dir_entry)) : list photo :=
  match directory with
  | None => []
  | Some entries => foldl load_step [] (sorted_paths entries)
  end.

(** The distance the matcher measures to a settlement. *)
Definition dist_to (coords : Q * Q) (s : settlement) : Q :=
  km (geodesic coords (lat s, lon s)).

(** [s] sits at index [i], no settlement is closer to [coords], and every
    earlier one is strictly farther. *)
Definition first_nearest (coords : Q * Q) (settlements : list settlement)
  (i : nat) (s : settlement) : Prop :=
  settlements !! i = Some s ∧
  ∀ j s', settlements !! j = Some s' →
    dist_to coords s <= dist_to coords s' ∧
    ((j < i)%nat → dist_to coords s < dist_to coords s').

(** The name of the settlement a photo is matched to, if any. *)
Definition matched_name (settlements : list settlement) (ph : photo)
  : option string :=
  match nearest_settlement (coords ph) settlements with
  | (Some s, _) => Some (name s)
  | (None, _) => None
  end.

(** Ascending by key: every element's key is at most the key of every
    later element. *)
Definition ascending {A : Type} (key : A → Q) (l : list A) : Prop :=
  StronglySorted (λ a b, key a <= key b) l.

(** [ph] is within the deduplication radius of [rep], measured from
    [ph] as the loop does. *)
Definition near (ph rep : photo) : Prop :=
  meters (geodesic (coords ph) (coords rep)) <= DEDUP_RADIUS_M.

(** The clustering rule in the specification's words: [ph] is appended to
    the first cluster, in creation order, whose first member is near;
    with no such cluster it starts a new one at the end. *)
Definition joins_first_near (ph : photo) (before after : list (list photo))
  : Prop :=
  (∃ i c rep,
     before !! i = Some c ∧ head c = Some rep ∧ near ph rep ∧
     (∀ j c' rep', (j < i)%nat → before !! j = Some c' →
        head c' = Some rep' → ¬ near ph rep') ∧
     after = <[i := c ++ [ph]]> before) ∨
  ((∀ c rep, c ∈ before → head c = Some rep → ¬ near ph rep) ∧
   after = before ++ [[ph]]).

(** [r] is the first member of [c] with the largest timestamp. *)
Definition latest_first (c : list photo) (r : photo) : Prop :=
  ∃ i, c !! i = Some r ∧
    ∀ j x, c !! j = Some x →
      (taken x ≤ taken r)%N ∧ ((j < i)%nat → (taken x < taken r)%N).

(** Every later member of a cluster passed the radius test against its
    first member. *)
Definition within_radius (c : list photo) : Prop :=
  match c with
  | [] => False
  | rep :: members => Forall (λ p, near p rep) members
  end.

(** The first member of each cluster failed the radius test against the
    first member of every earlier cluster. *)
Definition heads_apart (clusters : list (list photo)) : Prop :=
  ∀ i j ci cj ri rj,
    (i < j)%nat → clusters !! i = Some ci → clusters !! j = Some cj →
    head ci = Some ri → head cj = Some rj → ¬ near rj ri.

(** Every photo failed the radius test against every earlier photo. *)
Definition each_far_from_earlier (photos : list photo) : Prop :=
  ∀ earlier q later,
    photos = earlier ++ q :: later → Forall (λ p, ¬ near q p) earlier.

(** What one directory entry contributes to [load_photos]. *)
Definition load_result (e : dir_entry) : option photo :=
  if supported e then
    match load_one e with
    | Ok (Some ph) => Some ph
    | Ok None | Raise _ => None
    end
  else None.

(** Paths in ascending order of their names. *)
Definition name_order (l : list dir_entry) : Prop :=
  StronglySorted
    (λ a b, String.leb (entry_name a) (entry_name b) = true) l.

(** A tag that gives [extract_datetime] nothing: absent, empty, or not in
    the expected format. *)
Definition no_timestamp (exif : gmap Z string) (tag : Z) : Prop :=
  match exif !! tag with
  | Some val => val = ""%string ∨ strptime val = Raise ValueError
  | None => True
  end.

(** A value [_to_float] converts by itself, without Pillow's [float()]. *)
Definition plain (v : value) : Prop :=
  match v with
  | VRational _ _ => False
  | _ => True
  end.

(** ** Comparisons *)

Lemma Qltb_lt x y : Qltb x y = true ↔ x < y.
Proof.
  unfold Qltb. rewrite negb_true_iff, <- not_true_iff_false, Qle_bool_iff.
  split; [apply Qnot_le_lt | apply Qlt_not_le].
Qed.

Lemma Qltb_ge x y : Qltb x y = false ↔ y <= x.
Proof. unfold Qltb. by rewrite negb_false_iff, Qle_bool_iff. Qed.

Lemma Qle_bool_gt x y : Qle_bool x y = false ↔ y < x.
Proof.
  rewrite <- not_true_iff_false, Qle_bool_iff.
  split; [apply Qnot_le_lt | apply Qlt_not_le].
Qed.

(** ** EXIF conversion *)

(** A [(numerator, denominator)] tuple converts without raising: to
    zero when the denominator is zero, to the quotient otherwise. *)
Lemma to_float_tuple_never_raises (num den : Q) :
  ∃ x, _to_float (VTuple [num; den]) = Ok x ∧
       (den == 0 → x = 0) ∧
       (¬ den == 0 → x = num / den).
Proof.
  simpl. destruct (Qeq_bool den 0) eqn:E; simpl.
  - apply Qeq_bool_iff in E. exists 0. by split_and!.
  - exists (num / den). split_and!; [done| |done].
    intros H. apply Qeq_bool_iff in H. congruence.
Qed.


Lemma in_SW_iff ref : in_SW ref = true ↔ ref = "S"%string ∨ ref = "W"%string.
Proof.
  unfold in_SW. rewrite orb_true_iff, !bool_decide_eq_true. done.
Qed.

Lemma dms_to_decimal_eq vd vm vs ref d m s :
  _to_float vd = Ok d → _to_float vm = Ok m → _to_float vs = Ok s →
  _dms_to_decimal [vd; vm; vs] ref =
    Ok (if in_SW ref then - (d + m / 60 + s / 3600) else d + m / 60 + s / 3600).
Proof.
  intros Hd Hm Hs. unfold _dms_to_decimal. simpl.
  rewrite Hd. simpl. rewrite Hm. simpl. rewrite Hs. done.
Qed.

Lemma dms_sum_nonneg d m s :
  0 <= d → 0 <= m → 0 <= s → 0 <= d + m / 60 + s / 3600.
Proof.
  intros Hd Hm Hs.
  assert (0 <= m / 60) by (apply Qle_shift_div_l; lra).
  assert (0 <= s / 3600) by (apply Qle_shift_div_l; lra).
  lra.
Qed.

(** C6. The conversion is [deg + min/60 + sec/3600], negated exactly for
    the references "S" and "W"; for non-negative components the result
    is at most 0 for "S"/"W" and at least 0 otherwise; the fixture
    52°14'07.8"N, 0°54'05.0"E lands within 1e-4 of (52.2355, 0.9014). *)
Theorem dms_to_decimal_spec vd vm vs ref d m s :
  _to_float vd = Ok d → _to_float vm = Ok m → _to_float vs = Ok s →
  let dec := d + m / 60 + s / 3600 in
  ∃ x, _dms_to_decimal [vd; vm; vs] ref = Ok x ∧
    (ref = "S"%string ∨ ref = "W"%string → x = - dec) ∧
    (ref ≠ "S"%string → ref ≠ "W"%string → x = dec) ∧
    (0 <= d → 0 <= m → 0 <= s →
       (ref = "S"%string ∨ ref = "W"%string → x <= 0) ∧
       (ref ≠ "S"%string → ref ≠ "W"%string → 0 <= x)) ∧
    ∃ la lo,
      _dms_to_decimal
        [VTuple [52; 1]; VTuple [14; 1]; VTuple [78; 10]] "N" = Ok la ∧
      _dms_to_decimal
        [VTuple [0; 1]; VTuple [54; 1]; VTuple [5; 1]] "E" = Ok lo ∧
      Qabs (la - (522355 # 10000)) <= 1 # 10000 ∧
      Qabs (lo - (9014 # 10000)) <= 1 # 10000.
Proof.
  intros Hd Hm Hs dec.
  eexists. split; [by apply dms_to_decimal_eq|].
  pose proof (in_SW_iff ref) as Hsw.
  destruct (in_SW ref) eqn:E.
  - assert (Href : ref = "S"%string ∨ ref = "W"%string) by by apply Hsw.
    split_and!.
    + done.
    + intros ??. destruct Href; done.
    + intros Hd0 Hm0 Hs0. pose proof (dms_sum_nonneg d m s Hd0 Hm0 Hs0).
      split; [intros _; fold dec; fold dec in H; lra|].
      intros ??. destruct Href; done.
    + eexists _, _. split_and!; [reflexivity|reflexivity|..];
        apply Qabs_Qle_condition; split; vm_compute; discriminate.
  - assert (Href : ¬ (ref = "S"%string ∨ ref = "W"%string)).
    { intros H. apply Hsw in H. done. }
    split_and!.
    + intros H. done.
    + done.
    + intros Hd0 Hm0 Hs0. pose proof (dms_sum_nonneg d m s Hd0 Hm0 Hs0).
      split; [intros H'; done|]. intros _ _. done.
    + eexists _, _. split_and!; [reflexivity|reflexivity|..];
        apply Qabs_Qle_condition; split; vm_compute; discriminate.
Qed.

(** ** Nearest settlement *)

Lemma first_nearest_unique coords settlements i s i' s' :
  first_nearest coords settlements i s →
  first_nearest coords settlements i' s' →
  i = i' ∧ s = s'.
Proof.
  intros [Hi Hmin] [Hi' Hmin'].
  destruct (Hmin _ _ Hi') as [Hle Hlt], (Hmin' _ _ Hi) as [Hle' Hlt'].
  destruct (lt_eq_lt_dec i i') as [[Hlt0| ->]|Hgt].
  - specialize (Hlt' Hlt0). lra.
  - split; [done|congruence].
  - specialize (Hlt Hgt). lra.
Qed.

(** The scan's invariant: after any prefix, the running pair is the first
    nearest settlement of that prefix with its distance. *)
Lemma nearest_scan_spec coords settlements :
  match foldl (nearest_step coords) (None, Inf) settlements with
  | (None, Inf) => settlements = []
  | (Some s, Fin d) =>
      d = dist_to coords s ∧ ∃ i, first_nearest coords settlements i s
  | _ => False
  end.
Proof.
  induction settlements as [|x pre IH] using rev_ind; [done|].
  rewrite foldl_app. simpl.
  destruct (foldl (nearest_step coords) (None, Inf) pre) as [[s|] [d|]];
    try done; unfold nearest_step; simpl; fold (dist_to coords x).
  - destruct IH as [Hd [i [Hi Hmin]]]. subst d.
    destruct (Qltb (dist_to coords x) (dist_to coords s)) eqn:E.
    + apply Qltb_lt in E. split; [done|]. exists (length pre). split.
      { by rewrite lookup_app_r, Nat.sub_diag by lia. }
      intros j s' Hj. apply lookup_app_Some in Hj as [Hj|[Hge Hj]].
      * destruct (Hmin _ _ Hj) as [Hle _]. split; [lra|intros _; lra].
      * apply list_lookup_singleton_Some in Hj as [Hj ->].
        split; [lra|]. intros ?. lia.
    + apply Qltb_ge in E. split; [done|]. exists i. split.
      { by apply lookup_app_l_Some. }
      intros j s' Hj. apply lookup_app_Some in Hj as [Hj|[Hge Hj]].
      * by apply Hmin.
      * apply list_lookup_singleton_Some in Hj as [Hj ->].
        split; [done|]. apply lookup_lt_Some in Hi. intros ?. lia.
  - subst pre. split; [done|]. exists 0%nat. split; [done|].
    intros j s' Hj. apply list_lookup_singleton_Some in Hj as [Hj ->]. subst j.
    split; [lra|]. intros ?. lia.
Qed.

(** C10. On an empty gazetteer there is no match, and no error: the
    minimum stays at infinity and fails the radius test. *)
Theorem nearest_settlement_empty coords :
  foldl (nearest_step coords) (None, Inf) [] = (None, Inf) ∧
  ext_leb Inf (Fin MATCH_RADIUS_KM) = false ∧
  nearest_settlement coords [] = (None, None).
Proof. done. Qed.

Lemma nearest_settlement_cases coords settlements :
  (nearest_settlement coords settlements = (None, None) ∧
   ∀ s, s ∈ settlements → MATCH_RADIUS_KM < dist_to coords s) ∨
  (∃ i s, nearest_settlement coords settlements =
            (Some s, Some (Fin (dist_to coords s))) ∧
          first_nearest coords settlements i s ∧
          dist_to coords s <= MATCH_RADIUS_KM).
Proof.
  unfold nearest_settlement.
  pose proof (nearest_scan_spec coords settlements) as H.
  destruct (foldl (nearest_step coords) (None, Inf) settlements)
    as [[s|] [d|]]; try done.
  - destruct H as [Hd [i Hfirst]]. subst d. simpl.
    destruct (Qle_bool (dist_to coords s) MATCH_RADIUS_KM) eqn:E.
    + right. exists i, s. apply Qle_bool_iff in E. done.
    + left. split; [done|]. apply Qle_bool_gt in E.
      intros s' [j Hj]%list_elem_of_lookup.
      destruct Hfirst as [_ Hmin]. destruct (Hmin _ _ Hj) as [Hle _]. lra.
  - subst. left. split; [done|]. intros s Hs. by apply not_elem_of_nil in Hs.
Qed.

(** C2. [nearest_settlement] returns a settlement with its distance
    exactly when the minimum distance over the gazetteer is at most
    1.5 km (boundary included), and then it is the first settlement, in
    gazetteer order, at that minimum; otherwise it returns (None, None),
    which happens exactly when every settlement is farther than 1.5 km.
    A point at a settlement's coordinates is matched at distance 0, to
    that settlement unless an earlier one is at distance 0 as well. *)
Theorem nearest_settlement_spec coords settlements :
  (∀ s d, nearest_settlement coords settlements = (Some s, Some d) ↔
     d = Fin (dist_to coords s) ∧
     dist_to coords s <= MATCH_RADIUS_KM ∧
     ∃ i, first_nearest coords settlements i s) ∧
  (nearest_settlement coords settlements = (None, None) ↔
     ∀ s, s ∈ settlements → MATCH_RADIUS_KM < dist_to coords s) ∧
  (nearest_settlement coords settlements = (None, None) ∨
   ∃ s d, nearest_settlement coords settlements = (Some s, Some (Fin d))) ∧
  (∀ i s, settlements !! i = Some s → coords = (lat s, lon s) →
     (∀ p, km (geodesic p p) == 0) →
     (∀ p q, 0 <= km (geodesic p q)) →
     ∃ s', nearest_settlement coords settlements =
             (Some s', Some (Fin (dist_to coords s'))) ∧
           dist_to coords s' == 0 ∧
           ((∀ j s'', (j < i)%nat → settlements !! j = Some s'' →
               ¬ dist_to coords s'' == 0) → s' = s)).
Proof.
  pose proof (nearest_settlement_cases coords settlements) as Hc.
  split_and!.
  - intros s d. split.
    + intros Hr. destruct Hc as [[Hn _]|(i & s0 & Hs & Hfirst & Hle)];
        [congruence|].
      rewrite Hs in Hr. injection Hr as <- <-. eauto.
    + intros (-> & Hle & i & Hfirst).
      destruct Hc as [[_ Hfar]|(i0 & s0 & Hs & Hfirst0 & _)].
      * destruct Hfirst as [Hi _].
        assert (s ∈ settlements) as Hin by (apply list_elem_of_lookup; eauto).
        apply Hfar in Hin. lra.
      * destruct (first_nearest_unique _ _ _ _ _ _ Hfirst Hfirst0) as [_ ->].
        done.
  - split.
    + intros Hr. destruct Hc as [[_ Hfar]|(i & s0 & Hs & _)]; [done|congruence].
    + intros Hfar. destruct Hc as [[Hn _]|(i & s0 & _ & [Hi _] & Hle)]; [done|].
      assert (s0 ∈ settlements) as Hin by (apply list_elem_of_lookup; eauto).
      apply Hfar in Hin. lra.
  - destruct Hc as [[Hn _]|(i & s0 & Hs & _)]; [by left|right; eauto].
  - intros i s Hi -> Hself Hnonneg.
    assert (dist_to (lat s, lon s) s == 0) as Hzero by apply Hself.
    destruct Hc as [[_ Hfar]|(i0 & s0 & Hs & Hfirst & _)].
    + assert (s ∈ settlements) as Hin by (apply list_elem_of_lookup; eauto).
      apply Hfar in Hin. unfold MATCH_RADIUS_KM in Hin. lra.
    + exists s0. split; [done|].
      destruct Hfirst as [Hi0 Hmin]. destruct (Hmin _ _ Hi) as [Hle Hlt].
      assert (dist_to (lat s, lon s) s0 == 0) as Hzero0.
      { pose proof (Hnonneg (lat s, lon s) (lat s0, lon s0)) as Hn.
        fold (dist_to (lat s, lon s) s0) in Hn. lra. }
      split; [done|]. intros Hearlier.
      destruct (lt_eq_lt_dec i i0) as [[Hlt0| ->]|Hgt].
      * specialize (Hlt Hlt0). lra.
      * congruence.
      * by destruct (Hearlier _ _ Hgt Hi0).
Qed.

(** ** Deduplication *)

Lemma near_dec ph rep :
  Qle_bool (meters (geodesic (coords ph) (coords rep))) DEDUP_RADIUS_M = true
  ↔ near ph rep.
Proof. apply Qle_bool_iff. Qed.

Lemma place_photo_spec ph clusters :
  Forall (λ c, c ≠ []) clusters →
  (∃ i c rep,
     clusters !! i = Some c ∧ head c = Some rep ∧ near ph rep ∧
     (∀ j c' rep', (j < i)%nat → clusters !! j = Some c' →
        head c' = Some rep' → ¬ near ph rep') ∧
     place_photo ph clusters = Ok (<[i := c ++ [ph]]> clusters, true)) ∨
  ((∀ c rep, c ∈ clusters → head c = Some rep → ¬ near ph rep) ∧
   place_photo ph clusters = Ok (clusters, false)).
Proof.
  induction 1 as [|c others Hc _ IH].
  - right. split; [|done]. intros c rep Hin. by apply not_elem_of_nil in Hin.
  - destruct c as [|rep c]; [done|]. simpl.
    destruct (Qle_bool _ _) eqn:E.
    + left. exists 0%nat, (rep :: c), rep. apply near_dec in E.
      split_and!; try done. intros j ??. lia.
    + assert (¬ near ph rep) as Hfar.
      { intros Hn%near_dec. congruence. }
      destruct IH as [(i & c' & rep' & Hi & Hh & Hn & Hfirst & ->)|[Hnone ->]].
      * left. exists (S i), c', rep'. split_and!; try done.
        intros [|j] c'' rep'' Hj Hl Hh'; simpl in *.
        -- simplify_eq/=. done.
        -- apply (Hfirst j c'' rep''); [lia|done..].
      * right. split; [|done]. intros c' rep' Hin Hh.
        apply elem_of_cons in Hin as [->|Hin]; [by simplify_eq/=|].
        by apply (Hnone c' rep').
Qed.

Lemma add_photo_spec ph clusters :
  Forall (λ c, c ≠ []) clusters →
  ∃ after, add_photo clusters ph = Ok after ∧
           joins_first_near ph clusters after ∧
           Forall (λ c, c ≠ []) after.
Proof.
  intros Hne. unfold add_photo.
  destruct (place_photo_spec ph clusters Hne)
    as [(i & c & rep & Hi & Hh & Hn & Hfirst & ->)|[Hnone ->]]; simpl.
  - eexists. split; [done|]. split.
    + left. by exists i, c, rep.
    + apply Forall_insert; [done|]. by destruct c.
  - eexists. split; [done|]. split.
    + by right.
    + apply Forall_app. split; [done|]. by repeat constructor.
Qed.

Lemma cluster_photos_snoc clusters photos ph :
  cluster_photos clusters (photos ++ [ph]) =
    cluster_photos clusters photos ≫= λ cs, add_photo cs ph.
Proof.
  revert clusters. induction photos as [|x photos IH]; intros clusters; simpl.
  - by destruct (add_photo clusters ph).
  - destruct (add_photo clusters x); simpl; [apply IH|done].
Qed.

Lemma cluster_photos_total clusters photos :
  Forall (λ c, c ≠ []) clusters →
  ∃ after, cluster_photos clusters photos = Ok after ∧
           Forall (λ c, c ≠ []) after.
Proof.
  revert clusters. induction photos as [|x photos IH]; intros clusters Hne.
  - by exists clusters.
  - simpl. destruct (add_photo_spec x clusters Hne) as (mid & -> & _ & Hmid).
    simpl. by apply IH.
Qed.

Lemma max_from_snoc {A : Type} (key : A → N) best rest x :
  max_from key best (rest ++ [x]) =
    let m := max_from key best rest in
    if (key m <? key x)%N then x else m.
Proof.
  revert best. induction rest as [|y rest IH]; intros best; simpl; [done|].
  destruct (key best <? key y)%N; apply IH.
Qed.

Lemma max_from_latest_first best rest :
  latest_first (best :: rest) (max_from taken best rest).
Proof.
  induction rest as [|x rest IH] using rev_ind.
  - exists 0%nat. split; [done|]. intros j y Hj.
    apply list_lookup_singleton_Some in Hj as [Hj ->]. subst j.
    split; [done|]. intros ?. lia.
  - rewrite max_from_snoc. simpl.
    destruct IH as (i & Hi & Hmax). rewrite app_comm_cons.
    set (l := best :: rest) in *. set (m := max_from taken best rest) in *.
    destruct (taken m <? taken x)%N eqn:E.
    + apply N.ltb_lt in E. exists (length l). split.
      { by rewrite lookup_app_r, Nat.sub_diag by lia. }
      intros j y Hj. apply lookup_app_Some in Hj as [Hj|[Hge Hj]].
      * destruct (Hmax _ _ Hj) as [Hle _]. split; [lia|intros _; lia].
      * apply list_lookup_singleton_Some in Hj as [Hj ->].
        split; [done|]. intros ?. lia.
    + apply N.ltb_ge in E. exists i. split; [by apply lookup_app_l_Some|].
      intros j y Hj. apply lookup_app_Some in Hj as [Hj|[Hge Hj]].
      * by apply Hmax.
      * apply list_lookup_singleton_Some in Hj as [Hj ->].
        split; [done|]. apply lookup_lt_Some in Hi. intros ?. lia.
Qed.

Lemma py_max_latest_first c :
  c ≠ [] → ∃ r, py_max taken c = Ok r ∧ latest_first c r.
Proof.
  destruct c as [|best rest]; [done|]. intros _.
  eexists. split; [done|]. apply max_from_latest_first.
Qed.

Lemma representatives_total clusters :
  Forall (λ c, c ≠ []) clusters →
  ∃ reps, mapM (py_max taken) clusters = Ok reps ∧
          Forall2 (λ c r, py_max taken c = Ok r) clusters reps.
Proof.
  induction 1 as [|c clusters Hc _ (reps & Hreps & Hall)].
  - by exists [].
  - destruct (py_max_latest_first c Hc) as (r & Hr & _).
    exists (r :: reps). simpl. rewrite Hr. simpl. rewrite Hreps.
    split; [done|]. by constructor.
Qed.

(** C3. Photos are clustered in input order: each photo is compared with
    the first member of every existing cluster, in creation order, joins
    the first cluster whose first member is within 50 m, and otherwise
    starts a new cluster; the output has one representative per cluster,
    in creation order. Two photos more than 50 m apart are both kept. *)
Theorem deduplicate_clusters_first_member photos :
  ∃ clusters reps,
    cluster_photos [] photos = Ok clusters ∧
    deduplicate photos = Ok reps ∧
    Forall2 (λ c r, py_max taken c = Ok r) clusters reps ∧
    (∀ pre ph post, photos = pre ++ ph :: post →
       ∃ before after,
         cluster_photos [] pre = Ok before ∧
         cluster_photos [] (pre ++ [ph]) = Ok after ∧
         joins_first_near ph before after) ∧
    (∀ p1 p2,
       DEDUP_RADIUS_M < meters (geodesic (coords p2) (coords p1)) →
       deduplicate [p1; p2] = Ok [p1; p2]).
Proof.
  destruct (cluster_photos_total [] photos) as (clusters & Hcl & Hne);
    [constructor|].
  destruct (representatives_total clusters Hne) as (reps & Hreps & Hall).
  exists clusters, reps. split_and!.
  - done.
  - unfold deduplicate. rewrite Hcl. done.
  - done.
  - intros pre ph post _.
    destruct (cluster_photos_total [] pre) as (before & Hb & Hbne);
      [constructor|].
    destruct (add_photo_spec ph before Hbne) as (after & Ha & Hjoin & _).
    exists before, after. split_and!; [done| |done].
    rewrite cluster_photos_snoc, Hb. done.
  - intros p1 p2 Hfar. apply Qle_bool_gt in Hfar.
    unfold deduplicate. simpl. unfold add_photo. simpl. rewrite Hfar. done.
Qed.

Lemma extract_datetime_from_unknown exif tags :
  (∀ tag val, tag ∈ tags → exif !! tag = Some val →
     val = ""%string ∨ strptime val = Raise ValueError) →
  extract_datetime_from exif tags = Ok datetime_min.
Proof.
  induction tags as [|tag tags IH]; intros Hbad; simpl; [done|].
  assert (extract_datetime_from exif tags = Ok datetime_min) as Hrest.
  { apply IH. intros t v Ht. apply Hbad. by right. }
  destruct (exif !! tag) as [val|] eqn:E; [|done].
  destruct (Hbad tag val) as [->|Hv]; [by left|done|..].
  - done.
  - rewrite Hv. by case_bool_decide.
Qed.

(** ** Assignment *)

Lemma matched_name_in_gazetteer settlements ph nm :
  matched_name settlements ph = Some nm →
  ∃ s, s ∈ settlements ∧ name s = nm.
Proof.
  unfold matched_name.
  destruct (nearest_settlement_cases (coords ph) settlements)
    as [[-> _]|(i & s & -> & [Hi _] & _)]; [done|].
  intros [= <-]. exists s. split; [|done]. apply list_elem_of_lookup. eauto.
Qed.

Lemma match_step_cases settlements st ph :
  (matched_name settlements ph = None ∧ match_step settlements st ph = st) ∨
  (∃ nm, matched_name settlements ph = Some nm ∧
         nm ∈ visited_names st ∧ match_step settlements st ph = st) ∨
  (∃ nm, matched_name settlements ph = Some nm ∧
         (nm ∉ visited_names st) ∧
         match_step settlements st ph =
           {| visited_names := {[nm]} ∪ visited_names st;
              visited := visited st ++ [visited_entry_of ph nm];
              written := written st ++ [out_name ph] |}).
Proof.
  unfold matched_name, match_step.
  destruct (nearest_settlement (coords ph) settlements) as [[s|] d].
  - right. case_bool_decide; [left|right]; by exists (name s).
  - by left.
Qed.

Lemma match_photos_snoc settlements photos ph :
  match_photos settlements (photos ++ [ph]) =
    match_step settlements (match_photos settlements photos) ph.
Proof. unfold match_photos. by rewrite foldl_app. Qed.

(** What the loop maintains: the claimed names are the names of the
    entries, no name has two entries, a name is claimed exactly when some
    processed photo matched it, every entry was built from such a photo,
    and one file is written per entry. *)
Lemma match_photos_inv settlements photos :
  let st := match_photos settlements photos in
  (∀ n, n ∈ visited_names st ↔ n ∈ v_name <$> visited st) ∧
  NoDup (v_name <$> visited st) ∧
  (∀ n, n ∈ visited_names st ↔
        ∃ ph, ph ∈ photos ∧ matched_name settlements ph = Some n) ∧
  (∀ e, e ∈ visited st →
        ∃ ph, ph ∈ photos ∧ matched_name settlements ph = Some (v_name e) ∧
              e = visited_entry_of ph (v_name e)) ∧
  length (written st) = length (visited st).
Proof.
  clear float_of_rational strptime.
  induction photos as [|ph photos IH] using rev_ind.
  - simpl. split_and!.
    + intros n. set_solver.
    + constructor.
    + intros n. split; [set_solver|]. intros (ph & Hph & _).
      by apply not_elem_of_nil in Hph.
    + intros e He. by apply not_elem_of_nil in He.
    + done.
  - rewrite match_photos_snoc. simpl in IH.
    set (st := match_photos settlements photos) in *.
    destruct IH as (Hnames & Hnodup & Hclaimed & Hentries & Hlen).
    destruct (match_step_cases settlements st ph)
      as [[Hm ->]|[(nm & Hm & Hin & ->)|(nm & Hm & Hnin & ->)]]; simpl.
    + split_and!; try done.
      * intros n. rewrite Hclaimed. split.
        -- intros (q & Hq & Hqm). exists q. split; [|done].
           apply elem_of_app. by left.
        -- intros (q & [Hq|Hq%list_elem_of_singleton]%elem_of_app & Hqm);
             [by exists q|]. congruence.
      * intros e He. destruct (Hentries e He) as (q & Hq & ?).
        exists q. split; [|done]. apply elem_of_app. by left.
    + split_and!; try done.
      * intros n. split.
        -- intros (q & Hq & Hqm)%Hclaimed. exists q. split; [|done].
           apply elem_of_app. by left.
        -- intros (q & [Hq|Hq%list_elem_of_singleton]%elem_of_app & Hqm).
           ++ apply Hclaimed. by exists q.
           ++ subst q. congruence.
      * intros e He. destruct (Hentries e He) as (q & Hq & ?).
        exists q. split; [|done]. apply elem_of_app. by left.
    + split_and!.
      * intros n. rewrite fmap_app, elem_of_app, elem_of_union, Hnames.
        simpl. rewrite list_elem_of_singleton, elem_of_singleton. tauto.
      * rewrite fmap_app. apply NoDup_app. split_and!; [done| |].
        -- intros n Hn. simpl. rewrite list_elem_of_singleton. intros ->.
           by apply Hnin, Hnames.
        -- simpl. apply NoDup_singleton.
      * intros n. rewrite elem_of_union, elem_of_singleton, Hclaimed. split.
        -- intros [->|(q & Hq & Hqm)].
           ++ exists ph. split; [|done]. apply elem_of_app. right.
              by apply list_elem_of_singleton.
           ++ exists q. split; [|done]. apply elem_of_app. by left.
        -- intros (q & [Hq|Hq%list_elem_of_singleton]%elem_of_app & Hqm).
           ++ right. by exists q.
           ++ left. congruence.
      * intros e [He|He%list_elem_of_singleton]%elem_of_app.
        -- destruct (Hentries e He) as (q & Hq & ?).
           exists q. split; [|done]. apply elem_of_app. by left.
        -- subst e. exists ph. simpl. split; [|done]. apply elem_of_app.
           right. by apply list_elem_of_singleton.
      * rewrite !length_app. simpl. lia.
Qed.

(** C5. No settlement gets a second entry. A photo whose matched
    settlement is already claimed leaves the whole loop state unchanged;
    a photo whose matched settlement no earlier photo matched appends
    exactly its own entry and claims the name. *)
Theorem first_claim_wins settlements photos :
  NoDup (v_name <$> visited (match_photos settlements photos)) ∧
  (∀ st ph nm,
     matched_name settlements ph = Some nm → nm ∈ visited_names st →
     match_step settlements st ph = st) ∧
  (∀ pre ph post nm,
     photos = pre ++ ph :: post →
     matched_name settlements ph = Some nm →
     let before := match_photos settlements pre in
     let after := match_photos settlements (pre ++ [ph]) in
     ((∃ q, q ∈ pre ∧ matched_name settlements q = Some nm) →
        after = before) ∧
     ((∀ q, q ∈ pre → matched_name settlements q ≠ Some nm) →
        visited after = visited before ++ [visited_entry_of ph nm] ∧
        visited_names after = {[nm]} ∪ visited_names before ∧
        written after = written before ++ [out_name ph])).
Proof.
  split_and!.
  - apply match_photos_inv.
  - intros st ph nm Hm Hin.
    destruct (match_step_cases settlements st ph)
      as [[_ ->]|[(nm' & _ & _ & ->)|(nm' & Hm' & Hnin & _)]]; [done..|].
    congruence.
  - intros pre ph post nm _ Hm before after. subst before after.
    rewrite match_photos_snoc.
    destruct (match_photos_inv settlements pre) as (_ & _ & Hclaimed & _).
    destruct (match_step_cases settlements (match_photos settlements pre) ph)
      as [[Hm' _]|[(nm' & Hm' & Hin & ->)|(nm' & Hm' & Hnin & ->)]].
    + congruence.
    + split; [done|]. intros Hnone.
      apply Hclaimed in Hin as (q & Hq & Hqm).
      destruct (Hnone q Hq). congruence.
    + assert (nm' = nm) as -> by congruence. split; [|done].
      intros Hsome. destruct Hnin. by apply Hclaimed.
Qed.

(** ** The build as a whole *)

Lemma deduplicate_total photos : ∃ reps, deduplicate photos = Ok reps.
Proof.
  destruct (cluster_photos_total [] photos) as (clusters & Hcl & Hne);
    [constructor|].
  destruct (representatives_total clusters Hne) as (reps & Hreps & _).
  exists reps. unfold deduplicate. by rewrite Hcl.
Qed.

Lemma build_total raw settlements today :
  ∃ reps, deduplicate raw = Ok reps ∧
    let st := match_photos settlements reps in
    let unvisited := unvisited_of (visited_names st) settlements in
    build raw settlements today =
      Ok {| out_data :=
              {| data_visited := visited st;
                 data_unvisited := unvisited;
                 data_stats :=
                   {| stats_visited := length (visited st);
                      stats_total := length (visited st) + length unvisited;
                      stats_generated := today |} |};
            out_csv := csv_row <$> sorted u_distance_km unvisited;
            out_photos := written st |}.
Proof.
  destruct (deduplicate_total raw) as [reps Hreps].
  exists reps. split; [done|]. unfold build. by rewrite Hreps.
Qed.

Lemma unvisited_names names settlements :
  u_name <$> unvisited_of names settlements =
    name <$> filter (λ s, name s ∉ names) settlements.
Proof. unfold unvisited_of. rewrite <- list_fmap_compose. done. Qed.

Lemma NoDup_fmap_filter {A B : Type} (f : A → B) (P : A → Prop)
  `{∀ x, Decision (P x)} (l : list A) :
  NoDup (f <$> l) → NoDup (f <$> filter P l).
Proof.
  induction l as [|x l IH]; [done|]. rewrite fmap_cons, NoDup_cons.
  intros [Hx Hl]. rewrite filter_cons. destruct (decide (P x)); [|by apply IH].
  rewrite fmap_cons. apply NoDup_cons. split; [|by apply IH].
  intros (y & Hy & [_ Hin]%list_elem_of_filter)%list_elem_of_fmap.
  apply Hx. rewrite Hy. by apply list_elem_of_fmap_2.
Qed.

(** With distinct gazetteer names, the settlements whose name is claimed
    are as many as the visited entries. *)
Lemma claimed_count settlements photos :
  NoDup (name <$> settlements) →
  let st := match_photos settlements photos in
  length (filter (λ s, name s ∈ visited_names st) settlements) =
    length (visited st).
Proof.
  intros Hnodup st.
  destruct (match_photos_inv settlements photos)
    as (Hnames & Hvis & Hclaimed & _). fold st in Hnames, Hvis, Hclaimed.
  rewrite <- (length_fmap name), <- (length_fmap v_name (visited st)).
  apply Permutation_length, NoDup_Permutation; [by apply NoDup_fmap_filter|done|].
  intros n. rewrite <- Hnames. split.
  - intros (s & -> & [Hin _]%list_elem_of_filter)%list_elem_of_fmap. done.
  - intros Hn. pose proof Hn as (ph & _ & Hm)%Hclaimed.
    apply matched_name_in_gazetteer in Hm as (s & Hs & <-).
    apply list_elem_of_fmap_2. by apply list_elem_of_filter.
Qed.

(** C1 (amended). For every gazetteer and every photo set, no name is in
    both the visited and the unvisited list, the names in either are
    exactly the gazetteer's, and the statistics add up; when the
    gazetteer's names are pairwise distinct, the two lists together have
    as many entries as the gazetteer. *)
Theorem build_partition raw settlements today :
  ∃ out, build raw settlements today = Ok out ∧
    let vis := data_visited (out_data out) in
    let unv := data_unvisited (out_data out) in
    (NoDup (name <$> settlements) →
       (length vis + length unv = length settlements)%nat) ∧
    (∀ n, n ∈ v_name <$> vis → n ∉ u_name <$> unv) ∧
    (∀ n, n ∈ (v_name <$> vis) ++ (u_name <$> unv) ↔
          n ∈ name <$> settlements) ∧
    (stats_visited (data_stats (out_data out)) + length unv =
       stats_total (data_stats (out_data out)))%nat.
Proof.
  destruct (build_total raw settlements today) as (reps & _ & ->).
  eexists. split; [done|]. simpl.
  set (st := match_photos settlements reps).
  destruct (match_photos_inv settlements reps)
    as (Hnames & _ & Hclaimed & _). fold st in Hnames, Hclaimed.
  split_and!.
  - intros Hnodup.
    pose proof (claimed_count settlements reps Hnodup) as Hcount.
    simpl in Hcount. fold st in Hcount. rewrite <- Hcount.
    unfold unvisited_of. rewrite length_fmap, <- !length_app.
    apply Permutation_length. apply filter_app_complement.
  - intros n Hn%Hnames. rewrite unvisited_names.
    intros (s & -> & [Hout _]%list_elem_of_filter)%list_elem_of_fmap. done.
  - intros n. rewrite elem_of_app, unvisited_names, <- Hnames. split.
    + intros [(ph & _ & Hm)%Hclaimed|Hn].
      * apply matched_name_in_gazetteer in Hm as (s & Hs & <-).
        by apply list_elem_of_fmap_2.
      * apply list_elem_of_fmap in Hn as (s & -> & [_ Hs]%list_elem_of_filter).
        by apply list_elem_of_fmap_2.
    + intros (s & -> & Hs)%list_elem_of_fmap.
      destruct (decide (name s ∈ visited_names st)); [by left|right].
      apply list_elem_of_fmap_2. by apply list_elem_of_filter.
  - done.
Qed.

(** ** The CSV *)

Lemma insert_by_perm {A : Type} (key : A → Q) x l :
  insert_by key x l ≡ₚ x :: l.
Proof.
  induction l as [|y l IH]; simpl; [done|].
  destruct (Qle_bool (key x) (key y)); [done|].
  rewrite IH. apply Permutation_swap.
Qed.

Lemma sorted_perm {A : Type} (key : A → Q) l : sorted key l ≡ₚ l.
Proof.
  induction l as [|x l IH]; simpl; [done|].
  rewrite insert_by_perm. by constructor.
Qed.

Lemma insert_by_ascending {A : Type} (key : A → Q) x l :
  ascending key l → ascending key (insert_by key x l).
Proof.
  unfold ascending. induction 1 as [|y l Hl IH Hy]; simpl.
  - repeat constructor.
  - destruct (Qle_bool (key x) (key y)) eqn:E.
    + apply Qle_bool_iff in E. constructor; [by constructor|].
      constructor; [done|].
      eapply Forall_impl; [exact Hy|]. simpl. intros z Hz. lra.
    + apply Qle_bool_gt in E. constructor; [done|].
      rewrite insert_by_perm. constructor; [lra|done].
Qed.

Lemma sorted_ascending {A : Type} (key : A → Q) l : ascending key (sorted key l).
Proof.
  induction l as [|x l IH]; simpl; [constructor|].
  by apply insert_by_ascending.
Qed.

Lemma ascending_fmap {A B : Type} (f : A → B) (key : B → Q) l :
  ascending (key ∘ f) l → ascending key (f <$> l).
Proof.
  unfold ascending. induction 1 as [|x l Hl IH Hx]; simpl; constructor.
  - done.
  - by apply Forall_fmap.
Qed.

Lemma round_half_even_close x :
  Qabs (inject_Z (round_half_even x) - x) <= 1 # 2.
Proof.
  unfold round_half_even.
  pose proof (Qfloor_le x) as Hlo. pose proof (Qlt_floor x) as Hhi.
  rewrite inject_Z_plus in Hhi. change (inject_Z 1) with 1 in Hhi.
  set (f := Qfloor x) in *. apply Qabs_Qle_condition.
  assert (inject_Z (f + 1) == inject_Z f + 1) as Hsucc
    by (rewrite inject_Z_plus; reflexivity).
  destruct (Qltb (x - inject_Z f) (1 # 2)) eqn:E1.
  { apply Qltb_lt in E1. lra. }
  apply Qltb_ge in E1.
  destruct (Qltb (1 # 2) (x - inject_Z f)) eqn:E2.
  { rewrite Hsucc. lra. }
  apply Qltb_ge in E2.
  destruct (Z.even f); [lra|]. rewrite Hsucc. lra.
Qed.

Lemma round_one_decimal d :
  ∃ z, round d 1 == inject_Z z / 10 ∧ Qabs (round d 1 - d) <= 1 # 20.
Proof.
  exists (round_half_even (d * 10)). unfold round.
  change (inject_Z (10 ^ Z.of_nat 1)) with 10. split; [reflexivity|].
  pose proof (round_half_even_close (d * 10)) as H.
  apply Qabs_Qle_condition in H. apply Qabs_Qle_condition.
  set (z := inject_Z (round_half_even (d * 10))) in *.
  assert (z / 10 == z * (1 # 10)) as -> by (field; done).
  lra.
Qed.

Lemma unvisited_from_gazetteer names settlements u :
  u ∈ unvisited_of names settlements →
  ∃ s, s ∈ settlements ∧ (name s ∉ names) ∧ u = unvisited_entry_of s.
Proof.
  intros (s & -> & [Hout Hs]%list_elem_of_filter)%list_elem_of_fmap.
  by exists s.
Qed.

(** C8. The CSV rows are the unvisited entries rearranged so that the
    distance column is non-decreasing; each distance is the distance
    from the home coordinate to the settlement, rounded to one decimal
    place. *)
Theorem csv_sorted_by_distance raw settlements today :
  ∃ out, build raw settlements today = Ok out ∧
    ascending snd (out_csv out) ∧
    out_csv out ≡ₚ csv_row <$> data_unvisited (out_data out) ∧
    (∀ row, row ∈ out_csv out →
       ∃ s, s ∈ settlements ∧
            row = (name s,
                   round (km (geodesic HOME_COORDS (lat s, lon s))) 1)) ∧
    (∀ d, ∃ z, round d 1 == inject_Z z / 10 ∧
               Qabs (round d 1 - d) <= 1 # 20).
Proof.
  destruct (build_total raw settlements today) as (reps & _ & ->).
  eexists. split; [done|]. simpl.
  set (unv := unvisited_of _ settlements). split_and!.
  - apply ascending_fmap, sorted_ascending.
  - by rewrite sorted_perm.
  - intros row (u & -> & Hu)%list_elem_of_fmap.
    rewrite sorted_perm in Hu.
    apply unvisited_from_gazetteer in Hu as (s & Hs & _ & ->).
    by exists s.
  - apply round_one_decimal.
Qed.

(** C9. A visited entry carries the coordinates of the deduplicated photo
    it was built from, so they differ from the matched settlement's
    whenever the photo is not at the settlement's position; an unvisited
    entry carries the gazetteer's coordinates of its settlement. *)
Theorem entry_coordinates raw settlements today :
  ∃ reps out,
    deduplicate raw = Ok reps ∧
    build raw settlements today = Ok out ∧
    (∀ e, e ∈ data_visited (out_data out) →
       ∃ ph s d,
         ph ∈ reps ∧
         nearest_settlement (coords ph) settlements = (Some s, d) ∧
         v_name e = name s ∧
         (v_lat e, v_lon e) = coords ph ∧
         (¬ ((coords ph).1 == lat s ∧ (coords ph).2 == lon s) →
          ¬ (v_lat e == lat s ∧ v_lon e == lon s))) ∧
    (∀ u, u ∈ data_unvisited (out_data out) →
       ∃ s, s ∈ settlements ∧
            u_name u = name s ∧ u_lat u = lat s ∧ u_lon u = lon s).
Proof.
  destruct (build_total raw settlements today) as (reps & Hreps & ->).
  exists reps. eexists. split_and!; [done|done|..]; simpl.
  - intros e He.
    destruct (match_photos_inv settlements reps) as (_ & _ & _ & Hentries & _).
    destruct (Hentries e He) as (ph & Hph & Hm & Heq).
    unfold matched_name in Hm.
    destruct (nearest_settlement (coords ph) settlements) as [[s|] d] eqn:E;
      [|done].
    injection Hm as Hm. exists ph, s, d. rewrite Heq. simpl.
    split_and!; [done|done|done| |done].
    by destruct (coords ph).
  - intros u (s & Hs & _ & ->)%unvisited_from_gazetteer. by exists s.
Qed.

(** ** More on the EXIF conversion *)

Lemma to_float_plain_error v e :
  plain v → _to_float v = Raise e → e = TypeError.
Proof.
  destruct v as [n d|items|x|]; simpl; [done| |done|congruence].
  intros _. destruct items as [|a [|b [|c items]]]; try congruence.
  destruct (Qeq_bool b 0); simpl; congruence.
Qed.

Lemma dms_short_raises dms ref :
  (length dms < 3)%nat →
  ∃ e, _dms_to_decimal dms ref = Raise e ∧
       ((∀ v, v ∈ dms → ∃ x, _to_float v = Ok x) → e = IndexError).
Proof.
  intros Hlen. unfold _dms_to_decimal.
  destruct dms as [|a [|b [|c dms]]]; simpl in *; [..|lia].
  - eauto.
  - destruct (_to_float a) as [x|e] eqn:Ea; simpl; [eauto|].
    exists e. split; [done|]. intros Hconv.
    destruct (Hconv a) as [x Hx]; [apply list_elem_of_here|congruence].
  - destruct (_to_float a) as [x|e] eqn:Ea; simpl.
    + destruct (_to_float b) as [y|e] eqn:Eb; simpl; [eauto|].
      exists e. split; [done|]. intros Hconv.
      destruct (Hconv b) as [y Hy]; [by repeat constructor|congruence].
    + exists e. split; [done|]. intros Hconv.
      destruct (Hconv a) as [x Hx]; [by repeat constructor|congruence].
Qed.

(** X1. A coordinate needs three components: with fewer the conversion
    raises, an IndexError when the components present convert; with
    more, the rest is ignored. *)
Theorem dms_needs_three_components dms ref :
  ((length dms < 3)%nat →
     ∃ e, _dms_to_decimal dms ref = Raise e ∧
          ((∀ v, v ∈ dms → ∃ x, _to_float v = Ok x) → e = IndexError)) ∧
  (∀ vd vm vs more,
     dms = vd :: vm :: vs :: more →
     _dms_to_decimal dms ref = _dms_to_decimal [vd; vm; vs] ref).
Proof.
  split; [apply dms_short_raises|]. intros vd vm vs more ->. done.
Qed.

(** X2. The hemisphere only flips the sign: a "S" or "W" reference gives
    the negation of what any other reference gives, and the same error
    when the conversion fails. *)
Theorem dms_hemisphere_flips_sign dms ref ref' :
  ref = "S"%string ∨ ref = "W"%string →
  ref' ≠ "S"%string → ref' ≠ "W"%string →
  _dms_to_decimal dms ref = Qopp <$> _dms_to_decimal dms ref'.
Proof.
  clear geodesic strptime strftime.
  intros Href%in_SW_iff Hs Hw.
  assert (in_SW ref' = false) as Href'.
  { apply not_true_iff_false. rewrite in_SW_iff. tauto. }
  unfold _dms_to_decimal. rewrite Href, Href'.
  destruct (getitem dms 0 ≫= _to_float); simpl; [|done].
  destruct (getitem dms 1 ≫= _to_float); simpl; [|done].
  destruct (getitem dms 2 ≫= _to_float); simpl; done.
Qed.

Lemma dms_plain_error dms ref e :
  Forall plain dms → _dms_to_decimal dms ref = Raise e →
  e = TypeError ∨ (e = IndexError ∧ (length dms < 3)%nat).
Proof.
  intros Hplain. unfold _dms_to_decimal, getitem.
  assert (∀ i k, (dms !! i ≫= λ v, Some (_to_float v)) = Some (Raise k) →
                  k = TypeError) as Hitem.
  { intros i k. destruct (dms !! i) as [v|] eqn:E; simpl; [|done].
    intros [= Hv]. eapply to_float_plain_error; [|done].
    by eapply Forall_lookup_1. }
  destruct (dms !! 0%nat) as [a|] eqn:Ea; simpl;
    [|intros [= <-]; right; split; [done|]; apply lookup_ge_None in Ea; lia].
  destruct (_to_float a) as [x|k] eqn:Eka; simpl;
    [|intros [= <-]; left; apply (Hitem 0%nat); by rewrite Ea; simpl; rewrite Eka].
  destruct (dms !! 1%nat) as [b|] eqn:Eb; simpl;
    [|intros [= <-]; right; split; [done|]; apply lookup_ge_None in Eb; lia].
  destruct (_to_float b) as [y|k] eqn:Ekb; simpl;
    [|intros [= <-]; left; apply (Hitem 1%nat); by rewrite Eb; simpl; rewrite Ekb].
  destruct (dms !! 2%nat) as [c|] eqn:Ec; simpl;
    [|intros [= <-]; right; split; [done|]; apply lookup_ge_None in Ec; lia].
  destruct (_to_float c) as [z|k] eqn:Ekc; simpl; [done|].
  intros [= <-]. left. apply (Hitem 2%nat). by rewrite Ec; simpl; rewrite Ekc.
Qed.

(** ** GPS extraction *)

(** X3. Without a latitude the result is "no coordinates", whatever else
    the block holds (an empty block included); so it is without a
    longitude, once the latitude has converted. *)
Theorem extract_gps_missing_coordinate gps :
  (gps_seqs gps !! 2%Z = None → extract_gps_from gps = Ok None) ∧
  (∀ dms la,
     gps_seqs gps !! 2%Z = Some dms →
     _dms_to_decimal dms (default "N"%string (gps_refs gps !! 1%Z)) = Ok la →
     gps_seqs gps !! 4%Z = None →
     extract_gps_from gps = Ok None).
Proof.
  unfold extract_gps_from, dict_getitem. split.
  - intros ->. simpl. by destruct (_ =? _)%nat.
  - intros dms la -> Hla ->. simpl. rewrite Hla. simpl.
    by destruct (_ =? _)%nat.
Qed.

(** X4. With coordinates made of tuples and plain numbers, the only
    exception [extract_gps] lets through is the IndexError of a
    coordinate with fewer than three components. *)
Theorem extract_gps_raises_only_index_error gps e :
  (∀ k dms, gps_seqs gps !! k = Some dms → Forall plain dms) →
  extract_gps_from gps = Raise e →
  e = IndexError ∧
  ∃ k dms, (k = 2%Z ∨ k = 4%Z) ∧ gps_seqs gps !! k = Some dms ∧
           (length dms < 3)%nat.
Proof.
  intros Hplain. unfold extract_gps_from, dict_getitem.
  destruct (_ =? _)%nat; [done|].
  destruct (gps_seqs gps !! 2%Z) as [lat_dms|] eqn:Elat; simpl; [|done].
  destruct (_dms_to_decimal lat_dms _) as [la|k] eqn:Ela; simpl.
  - destruct (gps_seqs gps !! 4%Z) as [lon_dms|] eqn:Elon; simpl; [|done].
    destruct (_dms_to_decimal lon_dms _) as [lo|k] eqn:Elo; simpl; [done|].
    apply dms_plain_error in Elo as [->|[-> Hshort]]; [done| |by eapply Hplain].
    intros [= <-]. split; [done|]. exists 4%Z, lon_dms. auto.
  - apply dms_plain_error in Ela as [->|[-> Hshort]]; [done| |by eapply Hplain].
    intros [= <-]. split; [done|]. exists 2%Z, lat_dms. auto.
Qed.

(** X5. A latitude that is a sequence of two components (or of none),
    each of which converts, is not reported as "no coordinates": the
    IndexError leaves [extract_gps]. *)
Theorem extract_gps_short_latitude_raises gps dms :
  gps_seqs gps !! 2%Z = Some dms →
  (length dms < 3)%nat →
  length dms ≠ 1%nat →
  (∀ v, v ∈ dms → ∃ x, _to_float v = Ok x) →
  extract_gps_from gps = Raise IndexError.
Proof.
  intros Hdms Hlen _ Hconv. unfold extract_gps_from, dict_getitem.
  assert (size (gps_seqs gps) ≠ 0)%nat as Hsize.
  { intros Hz%map_size_empty_inv. rewrite Hz in Hdms. done. }
  destruct (_ =? _)%nat eqn:E; [apply Nat.eqb_eq in E; lia|].
  rewrite Hdms. simpl.
  destruct (dms_short_raises dms
              (default "N"%string (gps_refs gps !! 1%Z)) Hlen)
    as (e & -> & He).
  rewrite (He Hconv). done.
Qed.

(** X6. Absent hemisphere references count as "N" and "E". *)
Theorem extract_gps_default_refs refs seqs :
  refs !! 1%Z = None → refs !! 3%Z = None →
  extract_gps_from (GpsIfd refs seqs) =
  extract_gps_from
    (GpsIfd (<[1%Z := "N"%string]> (<[3%Z := "E"%string]> refs)) seqs).
Proof.
  intros H1 H3. unfold extract_gps_from. simpl.
  rewrite lookup_insert_eq, lookup_insert_ne, lookup_insert_eq, H1, H3 by done.
  simpl.
  assert (size (<[1%Z := "N"%string]> (<[3%Z := "E"%string]> refs)) ≠ 0)%nat
    as Hsize.
  { intros Hz%map_size_empty_inv. by apply insert_non_empty in Hz. }
  destruct (size (<[1%Z:=_]> _) + size seqs =? 0)%nat eqn:E;
    [apply Nat.eqb_eq in E; lia|].
  destruct (size refs + size seqs =? 0)%nat eqn:E'; [|done].
  apply Nat.eqb_eq in E'.
  assert (seqs = ∅) as -> by (apply map_size_empty_inv; lia).
  done.
Qed.

(** ** Timestamp extraction *)

Lemma extract_datetime_from_skip exif tags :
  Forall (no_timestamp exif) tags →
  ∀ more, extract_datetime_from exif (tags ++ more) =
          extract_datetime_from exif more.
Proof.
  induction 1 as [|tag tags Htag _ IH]; intros more; simpl; [done|].
  unfold no_timestamp in Htag.
  destruct (exif !! tag) as [val|]; [|apply IH].
  destruct Htag as [->|Hval].
  - rewrite bool_decide_false by (intros ?; done). apply IH.
  - rewrite Hval. case_bool_decide; apply IH.
Qed.

(** X7. The tags are tried in the order DateTimeOriginal,
    DateTimeDigitized, DateTime: the first one whose value is non-empty
    and parses gives the timestamp, whatever the later ones hold. *)
Theorem extract_datetime_priority exif earlier tag later val t :
  [36867; 36868; 306]%Z = earlier ++ tag :: later →
  Forall (no_timestamp exif) earlier →
  exif !! tag = Some val → val ≠ ""%string → strptime val = Ok t →
  extract_datetime exif = Ok t.
Proof.
  intros Htags Hearlier Hval Hne Ht. unfold extract_datetime.
  rewrite Htags, extract_datetime_from_skip by done. simpl.
  rewrite Hval, bool_decide_true, Ht by done. done.
Qed.

Lemma extract_datetime_from_parsed exif tags :
  (∀ val e, strptime val = Raise e → e = ValueError) →
  ∃ t, extract_datetime_from exif tags = Ok t ∧
       (t = datetime_min ∨
        ∃ tag val, tag ∈ tags ∧ exif !! tag = Some val ∧
                   val ≠ ""%string ∧ strptime val = Ok t).
Proof.
  intros Honly. induction tags as [|tag tags (t & Ht & Hfrom)]; simpl.
  - exists datetime_min. by split; [|left].
  - assert (∃ t', extract_datetime_from exif tags = Ok t' ∧
             (t' = datetime_min ∨
              ∃ tag' val, tag' ∈ tag :: tags ∧ exif !! tag' = Some val ∧
                          val ≠ ""%string ∧ strptime val = Ok t')) as Hrest.
    { exists t. split; [done|]. destruct Hfrom as [->|(tg & v & Hin & ?)];
        [by left|right]. exists tg, v. split; [by right|done]. }
    destruct (exif !! tag) as [val|] eqn:E; [|done].
    case_bool_decide as Hne; [|done].
    destruct (strptime val) as [t'|e] eqn:Ep.
    + exists t'. split; [done|]. right. exists tag, val.
      split; [by left|done].
    + rewrite (Honly _ _ Ep). done.
Qed.

(** X8. When the parser fails only with ValueError, [extract_datetime]
    raises only when [img.getexif()] raises and the fallback
    [img._getexif()] raises too, and then with the fallback's exception;
    otherwise it returns the sentinel or the parsed, non-empty value of
    one of the three tags of the EXIF block it read. *)
Theorem extract_datetime_raises_only_from_fallback img :
  (∀ val e, strptime val = Raise e → e = ValueError) →
  match extract_datetime_of img with
  | Ok t =>
      ∃ exif, or_else (img_exif img) (img_legacy_exif img) = Ok exif ∧
        (t = datetime_min ∨
         ∃ tag val, tag ∈ [36867; 36868; 306]%Z ∧ exif !! tag = Some val ∧
                    val ≠ ""%string ∧ strptime val = Ok t)
  | Raise e => (∃ e0, img_exif img = Raise e0) ∧ img_legacy_exif img = Raise e
  end.
Proof.
  intros Honly. unfold extract_datetime_of.
  destruct (or_else (img_exif img) (img_legacy_exif img)) as [exif|e] eqn:E.
  - destruct (extract_datetime_from_parsed exif [36867; 36868; 306]%Z Honly)
      as (t & Ht & Hfrom).
    change (match extract_datetime exif with
            | Ok t0 =>
                ∃ exif0, Ok exif = Ok exif0 ∧
                  (t0 = datetime_min ∨
                   ∃ tag val, tag ∈ [36867; 36868; 306]%Z ∧
                     exif0 !! tag = Some val ∧ val ≠ ""%string ∧
                     strptime val = Ok t0)
            | Raise e =>
                (∃ e0, img_exif img = Raise e0) ∧ img_legacy_exif img = Raise e
            end).
    unfold extract_datetime. rewrite Ht. by exists exif.
  - unfold or_else in E. destruct (img_exif img) as [|e0]; [done|].
    simpl. eauto.
Qed.

(** ** Loading photos *)

Lemma string_leb_trans s1 s2 s3 :
  String.leb s1 s2 = true → String.leb s2 s3 = true →
  String.leb s1 s3 = true.
Proof.
  unfold String.leb. revert s2 s3.
  induction s1 as [|c1 t1 IH]; intros [|c2 t2] [|c3 t3]; simpl; try done.
  unfold Ascii.compare.
  destruct (N.compare_spec (Ascii.N_of_ascii c1) (Ascii.N_of_ascii c2)) as [E12|E12|E12],
           (N.compare_spec (Ascii.N_of_ascii c2) (Ascii.N_of_ascii c3)) as [E23|E23|E23],
           (N.compare_spec (Ascii.N_of_ascii c1) (Ascii.N_of_ascii c3)) as [E13|E13|E13];
    try done; try lia.
  apply IH.
Qed.

Lemma string_leb_gt s1 s2 :
  String.leb s1 s2 = false → String.leb s2 s1 = true.
Proof. intros H. destruct (String.leb_total s1 s2); congruence. Qed.

Lemma insert_path_perm e l : insert_path e l ≡ₚ e :: l.
Proof.
  induction l as [|y l IH]; simpl; [done|].
  destruct (String.leb _ _); [done|]. rewrite IH. apply Permutation_swap.
Qed.

Lemma sorted_paths_perm l : sorted_paths l ≡ₚ l.
Proof.
  induction l as [|e l IH]; simpl; [done|].
  rewrite insert_path_perm. by constructor.
Qed.

Lemma insert_path_order e l : name_order l → name_order (insert_path e l).
Proof.
  unfold name_order. induction 1 as [|y l Hl IH Hy]; simpl.
  - repeat constructor.
  - destruct (String.leb (entry_name e) (entry_name y)) eqn:E.
    + constructor; [by constructor|]. constructor; [done|].
      eapply Forall_impl; [exact Hy|]. simpl. intros z Hz.
      by eapply string_leb_trans.
    + apply string_leb_gt in E. constructor; [done|].
      rewrite insert_path_perm. by constructor.
Qed.

Lemma sorted_paths_order l : name_order (sorted_paths l).
Proof.
  induction l as [|e l IH]; simpl; [constructor|]. by apply insert_path_order.
Qed.

Lemma load_step_result photos e :
  load_step photos e = photos ++ option_list (load_result e).
Proof.
  unfold load_step, load_result. destruct (supported e); simpl.
  - destruct (load_one e) as [[ph|]|]; simpl; by rewrite ?app_nil_r.
  - by rewrite app_nil_r.
Qed.

Lemma load_fold photos entries :
  foldl load_step photos entries = photos ++ omap load_result entries.
Proof.
  revert photos. induction entries as [|e entries IH]; intros photos; simpl.
  - by rewrite app_nil_r.
  - rewrite IH, load_step_result, <- app_assoc.
    by destruct (load_result e).
Qed.

Lemma omap_insert_path_skipped e l :
  load_result e = None →
  omap load_result (insert_path e l) = omap load_result l.
Proof.
  intros He. induction l as [|y l IH]; simpl.
  - by rewrite He.
  - destruct (String.leb _ _); simpl; [by rewrite He|].
    change (list_omap dir_entry photo load_result)
      with (omap (M:=list) load_result).
    by rewrite IH.
Qed.

(** X9. The photos are loaded in the order of the file names: the list
    is what the entries, sorted by name, each contribute, and sorting
    only rearranges the directory listing. *)
Theorem load_photos_in_name_order entries :
  load_photos (Some entries) = omap load_result (sorted_paths entries) ∧
  sorted_paths entries ≡ₚ entries ∧
  name_order (sorted_paths entries).
Proof.
  split_and!.
  - unfold load_photos. by rewrite load_fold.
  - apply sorted_paths_perm.
  - apply sorted_paths_order.
Qed.

(** X10. A photo is loaded exactly when some entry has a supported
    suffix (in any letter case), opens, has GPS coordinates and yields a
    timestamp without raising; the photo carries the entry's stem. *)
Theorem load_photos_membership entries ph :
  ph ∈ load_photos (Some entries) ↔
  ∃ e img,
    e ∈ entries ∧
    lower (entry_suffix e) ∈ SUPPORTED ∧
    entry_open e = Ok img ∧
    extract_gps img = Ok (Some (coords ph)) ∧
    extract_datetime_of img = Ok (taken ph) ∧
    path ph = entry_stem e.
Proof.
  unfold load_photos. rewrite load_fold. simpl.
  rewrite list_elem_of_omap. split.
  - intros (e & He & Hres). rewrite sorted_paths_perm in He.
    unfold load_result, supported, load_one in Hres.
    case_bool_decide as Hsup; [|done].
    destruct (entry_open e) as [img|] eqn:Eopen; simpl in Hres; [|done].
    destruct (extract_gps img) as [[c|]|] eqn:Egps; simpl in Hres; [|done..].
    destruct (extract_datetime_of img) as [t|] eqn:Et; simpl in Hres; [|done].
    injection Hres as <-. by exists e, img.
  - intros (e & img & He & Hsup & Hopen & Hgps & Ht & Hpath).
    exists e. split; [by rewrite sorted_paths_perm|].
    unfold load_result, supported, load_one.
    rewrite bool_decide_true, Hopen by done. simpl. rewrite Hgps. simpl.
    rewrite Ht. simpl. f_equal. destruct ph. simpl in *. by subst.
Qed.

(** X11. A file that is not loaded (unsupported suffix, no GPS, or an
    exception while opening or reading it) changes nothing for the
    others; a directory that does not exist gives no photos. *)
Theorem load_photos_skips_bad_files e entries :
  load_photos None = [] ∧
  ((supported e = false ∨ load_one e = Ok None ∨ ∃ x, load_one e = Raise x) →
   load_photos (Some (e :: entries)) = load_photos (Some entries)).
Proof.
  split; [done|]. intros Hbad. unfold load_photos. rewrite !load_fold. simpl.
  apply omap_insert_path_skipped. unfold load_result.
  destruct Hbad as [->|[->|[x ->]]]; [done|by destruct (supported e)..].
Qed.

(** ** More on deduplication *)

Lemma joins_concat ph before after :
  joins_first_near ph before after →
  concat after ≡ₚ concat before ++ [ph].
Proof.
  clear float_of_rational strptime strftime.
  intros [(i & c & rep & Hi & _ & _ & _ & ->)|[_ ->]].
  - rewrite insert_take_drop by (by eapply lookup_lt_Some).
    rewrite <- (take_drop_middle before i c Hi) at 3.
    rewrite !concat_app. simpl. rewrite <- !app_assoc.
    do 2 apply Permutation_app_head. apply Permutation_app_comm.
  - rewrite concat_app. simpl. done.
Qed.

Lemma joins_sublists ph before after seen :
  joins_first_near ph before after →
  Forall (λ c, c `sublist_of` seen) before →
  Forall (λ c, c `sublist_of` seen ++ [ph]) after.
Proof.
  clear float_of_rational strptime strftime.
  intros Hjoin Hsub.
  assert (Forall (λ c, c `sublist_of` seen ++ [ph]) before) as Hsub'.
  { eapply Forall_impl; [exact Hsub|]. intros c Hc. by apply sublist_inserts_r. }
  destruct Hjoin as [(i & c & rep & Hi & _ & _ & _ & ->)|[_ ->]].
  - apply Forall_insert; [done|]. apply sublist_app; [|done].
    exact (Forall_lookup_1 _ _ _ _ Hsub Hi).
  - apply Forall_app. split; [done|]. constructor; [|done].
    by apply sublist_inserts_l.
Qed.

Lemma cluster_photos_partition clusters photos seen :
  Forall (λ c, c ≠ []) clusters →
  Forall (λ c, c `sublist_of` seen) clusters →
  ∃ after, cluster_photos clusters photos = Ok after ∧
    Forall (λ c, c ≠ []) after ∧
    concat after ≡ₚ concat clusters ++ photos ∧
    Forall (λ c, c `sublist_of` seen ++ photos) after.
Proof.
  revert clusters seen.
  induction photos as [|ph photos IH]; intros clusters seen Hne Hsub.
  - exists clusters. rewrite !app_nil_r. done.
  - simpl. destruct (add_photo_spec ph clusters Hne) as (mid & -> & Hjoin & Hmid).
    simpl.
    destruct (IH mid (seen ++ [ph]) Hmid) as (after & -> & Hafter & Hperm & Hs).
    { by eapply joins_sublists. }
    exists after. split_and!; [done|done| |].
    + rewrite Hperm, (joins_concat _ _ _ Hjoin), <- app_assoc. done.
    + by rewrite <- app_assoc in Hs.
Qed.

Lemma representatives_latest clusters reps :
  Forall (λ c, c ≠ []) clusters →
  Forall2 (λ c r, py_max taken c = Ok r) clusters reps →
  Forall2 (λ c r, c ≠ [] ∧ py_max taken c = Ok r ∧ latest_first c r ∧
                  (∀ x, x ∈ c → taken x ≠ datetime_min →
                        taken r ≠ datetime_min))
          clusters reps.
Proof.
  clear float_of_rational geodesic strptime strftime.
  intros Hne Hall. induction Hall as [|c r clusters reps Hr _ IH].
  - constructor.
  - apply Forall_cons in Hne as [Hc Hne]. constructor; [|by apply IH].
    destruct (py_max_latest_first c Hc) as (r' & Hr' & Hlatest).
    assert (r' = r) as -> by congruence. split_and!; [done..|].
    intros x [j Hj]%list_elem_of_lookup Hx.
    destruct Hlatest as (i & _ & Hmax). destruct (Hmax _ _ Hj) as [Hle _].
    unfold datetime_min in *. lia.
Qed.

(** C4. Deduplication splits the photos into non-empty clusters and
    returns, for each cluster in order, its member with the largest
    timestamp, the first such in encounter order. The sentinel
    [datetime_min] is below every timestamp, it is what a photo whose
    timestamp cannot be extracted carries, and a member carrying it is
    never chosen over a member whose timestamp differs from it. *)
Theorem representative_is_latest photos :
  ∃ clusters reps,
    cluster_photos [] photos = Ok clusters ∧
    deduplicate photos = Ok reps ∧
    concat clusters ≡ₚ photos ∧
    Forall2 (λ c r, c ≠ [] ∧ py_max taken c = Ok r ∧ latest_first c r ∧
                    (∀ x, x ∈ c → taken x ≠ datetime_min →
                          taken r ≠ datetime_min))
            clusters reps ∧
    (∀ x : photo, (datetime_min ≤ taken x)%N) ∧
    (∀ img exif,
       or_else (img_exif img) (img_legacy_exif img) = Ok exif →
       (∀ tag val, tag ∈ [36867; 36868; 306]%Z → exif !! tag = Some val →
          val = ""%string ∨ strptime val = Raise ValueError) →
       extract_datetime_of img = Ok datetime_min).
Proof.
  destruct (cluster_photos_partition [] photos [])
    as (clusters & Hcl & Hne & Hperm & _); [constructor..|].
  destruct (representatives_total clusters Hne) as (reps & Hreps & Hall).
  exists clusters, reps. split_and!.
  - done.
  - unfold deduplicate. by rewrite Hcl.
  - done.
  - by apply representatives_latest.
  - intros x. unfold datetime_min. lia.
  - intros img exif Hexif Hbad. unfold extract_datetime_of. rewrite Hexif.
    simpl. by apply extract_datetime_from_unknown.
Qed.

(** X12. The clusters partition the input: together they hold exactly the
    input photos, none is empty, and each lists its members in input
    order. *)
Theorem clusters_partition_input photos :
  ∃ clusters,
    cluster_photos [] photos = Ok clusters ∧
    concat clusters ≡ₚ photos ∧
    Forall (λ c, c ≠ [] ∧ c `sublist_of` photos) clusters.
Proof.
  destruct (cluster_photos_partition [] photos [])
    as (clusters & Hcl & Hne & Hperm & Hsub); [constructor..|].
  exists clusters. split_and!; [done|done|].
  apply Forall_and. done.
Qed.

Lemma joins_within_radius ph before after :
  joins_first_near ph before after →
  Forall within_radius before → Forall within_radius after.
Proof.
  intros [(i & c & rep & Hi & Hh & Hn & _ & ->)|[_ ->]] Hall.
  - apply Forall_insert; [done|].
    pose proof (Forall_lookup_1 _ _ _ _ Hall Hi) as Hc.
    destruct c as [|r members]; [done|]. simpl in *. injection Hh as ->.
    apply Forall_app. split; [done|]. by constructor.
  - apply Forall_app. split; [done|]. by repeat constructor.
Qed.

Lemma joins_heads_apart ph before after :
  joins_first_near ph before after →
  heads_apart before → heads_apart after.
Proof.
  intros [(i & c & rep & Hi & Hh & Hn & _ & ->)|[Hnone ->]] Hapart.
  - assert (∀ k x r, <[i := c ++ [ph]]> before !! k = Some x →
              head x = Some r →
              ∃ x', before !! k = Some x' ∧ head x' = Some r) as Hsame.
    { intros k x r Hk Hx. destruct (decide (k = i)) as [->|Hne].
      - rewrite list_lookup_insert_eq in Hk by (by eapply lookup_lt_Some).
        injection Hk as <-. exists c. split; [done|].
        destruct c; simpl in *; done.
      - rewrite list_lookup_insert_ne in Hk by done. by exists x. }
    intros a b ca cb ra rb Hab Ha Hb Hha Hhb.
    destruct (Hsame _ _ _ Ha Hha) as (ca' & Ha' & Hha').
    destruct (Hsame _ _ _ Hb Hhb) as (cb' & Hb' & Hhb').
    by eapply (Hapart a b).
  - intros a b ca cb ra rb Hab Ha Hb Hha Hhb.
    apply lookup_app_Some in Hb as [Hb|[Hge Hb]].
    + rewrite lookup_app_l in Ha by (apply lookup_lt_Some in Hb; lia).
      by eapply (Hapart a b).
    + apply list_lookup_singleton_Some in Hb as [Hb0 <-].
      simpl in Hhb. injection Hhb as <-.
      rewrite lookup_app_l in Ha by lia.
      eapply Hnone; [|done]. apply list_elem_of_lookup. eauto.
Qed.

Lemma cluster_photos_radius clusters photos :
  Forall (λ c, c ≠ []) clusters →
  Forall within_radius clusters → heads_apart clusters →
  ∃ after, cluster_photos clusters photos = Ok after ∧
    Forall within_radius after ∧ heads_apart after.
Proof.
  revert clusters.
  induction photos as [|ph photos IH]; intros clusters Hne Hin Hapart.
  - by exists clusters.
  - simpl. destruct (add_photo_spec ph clusters Hne) as (mid & -> & Hjoin & Hmid).
    simpl. apply IH; [done|by eapply joins_within_radius|
                      by eapply joins_heads_apart].
Qed.

(** X13. Every member of a cluster after its first passed the 50 m test
    against the first member, and the first member of each cluster
    failed it against the first member of every earlier cluster. *)
Theorem clusters_radius photos :
  ∃ clusters,
    cluster_photos [] photos = Ok clusters ∧
    Forall within_radius clusters ∧
    heads_apart clusters.
Proof.
  apply cluster_photos_radius; [constructor..|].
  intros i j ci cj ri rj _ Hi. done.
Qed.

Lemma representatives_sub clusters reps :
  Forall2 (λ c r, py_max taken c = Ok r) clusters reps →
  reps ⊆+ concat clusters.
Proof.
  clear float_of_rational geodesic strptime strftime.
  induction 1 as [|c r clusters reps Hr _ IH]; simpl; [done|].
  change (r :: reps) with ([r] ++ reps). apply submseteq_app; [|done].
  apply singleton_submseteq_l.
  destruct c as [|best rest]; [done|]. injection Hr as <-.
  destruct (max_from_latest_first best rest) as (i & Hi & _).
  apply list_elem_of_lookup. eauto.
Qed.

Lemma deduplicate_sub photos :
  ∃ reps, deduplicate photos = Ok reps ∧ reps ⊆+ photos ∧
          (photos ≠ [] → reps ≠ []).
Proof.
  destruct (cluster_photos_partition [] photos [])
    as (clusters & Hcl & Hne & Hperm & _); [constructor..|].
  destruct (representatives_total clusters Hne) as (reps & Hreps & Hall).
  exists reps. split_and!.
  - unfold deduplicate. by rewrite Hcl.
  - rewrite <- Hperm. by apply representatives_sub.
  - intros Hphotos ->. apply Forall2_nil_inv_r in Hall as ->.
    simpl in Hperm. by apply Permutation_nil_l in Hperm.
Qed.

(** X14. Deduplication only selects: whenever it returns, every photo
    of the output is a photo of the input, taken no more often than it
    occurs there, so the output is never longer; it is empty only for an
    empty input. *)
Theorem deduplicate_selects photos reps :
  deduplicate photos = Ok reps →
  reps ⊆+ photos ∧
  (length reps ≤ length photos)%nat ∧
  (photos ≠ [] → reps ≠ []).
Proof.
  intros Hreps.
  destruct (deduplicate_sub photos) as (reps' & Hd & Hsub & Hne).
  assert (reps' = reps) as -> by congruence.
  split_and!; [done| |done]. by apply submseteq_length.
Qed.

Lemma cluster_photos_single rep members photos :
  Forall (λ q, near q rep) photos →
  cluster_photos [rep :: members] photos = Ok [rep :: members ++ photos].
Proof.
  intros Hnear. revert members.
  induction Hnear as [|q photos Hq _ IH]; intros members; simpl.
  - by rewrite app_nil_r.
  - unfold add_photo. simpl. apply near_dec in Hq. rewrite Hq. simpl.
    rewrite IH, <- app_assoc. done.
Qed.

(** X15. When every photo after the first is within 50 m of the first,
    the output is one photo: the member of the input with the largest
    timestamp, the first such in input order. *)
Theorem deduplicate_one_place first others :
  Forall (λ q, near q first) others →
  ∃ r, deduplicate (first :: others) = Ok [r] ∧
       latest_first (first :: others) r.
Proof.
  intros Hnear. exists (max_from taken first others).
  split; [|apply max_from_latest_first].
  unfold deduplicate. simpl. unfold add_photo. simpl.
  by rewrite (cluster_photos_single first [] others Hnear).
Qed.

Lemma place_photo_apart q singles :
  Forall (λ p, ¬ near q p) singles →
  place_photo q ((λ p, [p]) <$> singles) = Ok ((λ p, [p]) <$> singles, false).
Proof.
  induction 1 as [|p singles Hp _ IH]; simpl; [done|].
  destruct (Qle_bool _ _) eqn:E; [by apply near_dec in E|].
  change (list_fmap photo (list photo) (λ p0, [p0]) singles)
    with ((λ p0 : photo, [p0]) <$> singles).
  by rewrite IH.
Qed.

Lemma cluster_photos_apart singles photos :
  each_far_from_earlier (singles ++ photos) →
  cluster_photos ((λ p, [p]) <$> singles) photos =
    Ok ((λ p, [p]) <$> (singles ++ photos)).
Proof.
  revert singles.
  induction photos as [|q photos IH]; intros singles Hfar; simpl.
  - by rewrite app_nil_r.
  - unfold add_photo. rewrite place_photo_apart by (by eapply Hfar). simpl.
    replace (((λ p, [p]) <$> singles) ++ [[q]])
      with ((λ p, [p]) <$> (singles ++ [q])) by (by rewrite fmap_app).
    rewrite IH by (by rewrite <- app_assoc). by rewrite <- app_assoc.
Qed.

Lemma representatives_singletons (photos : list photo) :
  mapM (py_max taken) ((λ p, [p]) <$> photos) = Ok photos.
Proof.
  clear float_of_rational geodesic strptime strftime.
  induction photos as [|p photos IH]; simpl; [done|].
  change (list_fmap photo (list photo) (λ p0, [p0]) photos)
    with ((λ p0 : photo, [p0]) <$> photos).
  by rewrite IH.
Qed.

(** X16. When no photo is within 50 m of an earlier one, deduplication
    returns the input unchanged. *)
Theorem deduplicate_apart_is_identity photos :
  each_far_from_earlier photos →
  deduplicate photos = Ok photos.
Proof.
  intros Hfar. unfold deduplicate.
  pose proof (cluster_photos_apart [] photos Hfar) as Hcl. simpl in Hcl.
  rewrite Hcl. apply representatives_singletons.
Qed.

(** ** More on matching *)

Lemma first_nearest_least coords settlements i s x :
  first_nearest coords settlements i s → x ∈ settlements →
  dist_to coords s <= dist_to coords x.
Proof.
  intros [_ Hmin] [j Hj]%list_elem_of_lookup. by destruct (Hmin _ _ Hj).
Qed.

(** X17. The order of the gazetteer matters for ties only: on a
    rearranged gazetteer the matcher finds a match exactly when it did
    before, at the same distance, and the same settlement whenever no
    other settlement is as near. *)
Theorem nearest_settlement_order_independent coords settlements settlements' :
  settlements ≡ₚ settlements' →
  (nearest_settlement coords settlements = (None, None) ↔
   nearest_settlement coords settlements' = (None, None)) ∧
  (∀ s d s' d',
     nearest_settlement coords settlements = (Some s, Some (Fin d)) →
     nearest_settlement coords settlements' = (Some s', Some (Fin d')) →
     d == d' ∧
     ((∀ x, x ∈ settlements → dist_to coords x <= d → x = s) → s' = s)).
Proof.
  intros Hperm.
  destruct (nearest_settlement_cases coords settlements)
    as [[Hn Hfar]|(i & s0 & Hs & Hfirst & Hle)],
     (nearest_settlement_cases coords settlements')
    as [[Hn' Hfar']|(i' & s0' & Hs' & Hfirst' & Hle')].
  - split; [by rewrite Hn, Hn'|]. intros ????. by rewrite Hn.
  - destruct Hfirst' as [Hi' _].
    assert (s0' ∈ settlements) as Hin.
    { rewrite Hperm. apply list_elem_of_lookup. eauto. }
    apply Hfar in Hin. lra.
  - destruct Hfirst as [Hi _].
    assert (s0 ∈ settlements') as Hin.
    { rewrite <- Hperm. apply list_elem_of_lookup. eauto. }
    apply Hfar' in Hin. lra.
  - split; [by rewrite Hs, Hs'|]. intros s d s' d'. rewrite Hs, Hs'.
    intros [= <- <-] [= <- <-].
    assert (s0 ∈ settlements') as Hin.
    { rewrite <- Hperm. apply list_elem_of_lookup. destruct Hfirst. eauto. }
    assert (s0' ∈ settlements) as Hin'.
    { rewrite Hperm. apply list_elem_of_lookup. destruct Hfirst'. eauto. }
    pose proof (first_nearest_least _ _ _ _ _ Hfirst Hin').
    pose proof (first_nearest_least _ _ _ _ _ Hfirst' Hin).
    split; [lra|]. intros Hsole. by apply Hsole.
Qed.

(** X18. Appending settlements to the gazetteer never loses a match and
    never lengthens the matched distance; appending settlements that are
    no closer than the current match changes nothing. *)
Theorem nearest_settlement_append coords settlements more s d :
  nearest_settlement coords settlements = (Some s, Some (Fin d)) →
  ∃ s' d',
    nearest_settlement coords (settlements ++ more) =
      (Some s', Some (Fin d')) ∧
    d' <= d ∧
    ((∀ x, x ∈ more → d <= dist_to coords x) → s' = s ∧ d' = d).
Proof.
  intros Hres.
  destruct (nearest_settlement_cases coords settlements)
    as [[Hn _]|(i & s0 & Hs & Hfirst & Hle)]; [congruence|].
  rewrite Hs in Hres. injection Hres as <- <-.
  assert (s0 ∈ settlements ++ more) as Hin.
  { apply elem_of_app. left. apply list_elem_of_lookup.
    destruct Hfirst. eauto. }
  destruct (nearest_settlement_cases coords (settlements ++ more))
    as [[_ Hfar]|(i' & s' & Hs' & Hfirst' & Hle')].
  - apply Hfar in Hin. lra.
  - exists s', (dist_to coords s'). split; [done|].
    split; [by eapply first_nearest_least|]. intros Hmore.
    assert (first_nearest coords (settlements ++ more) i s0) as Hstill.
    { destruct Hfirst as [Hi Hmin]. split; [by apply lookup_app_l_Some|].
      intros j x Hj. apply lookup_app_Some in Hj as [Hj|[Hge Hj]].
      - by apply Hmin.
      - split.
        + apply Hmore. apply list_elem_of_lookup. eauto.
        + apply lookup_lt_Some in Hi. intros ?. lia. }
    destruct (first_nearest_unique _ _ _ _ _ _ Hstill Hfirst') as [_ ->].
    done.
Qed.

(** ** More on the build *)

Lemma match_photos_kept settlements photos :
  let st := match_photos settlements photos in
  ∃ kept,
    kept `sublist_of` photos ∧
    Forall2 (λ ph e, matched_name settlements ph = Some (v_name e) ∧
                     e = visited_entry_of ph (v_name e)) kept (visited st) ∧
    written st = out_name <$> kept.
Proof.
  clear float_of_rational strptime.
  induction photos as [|ph photos IH] using rev_ind.
  - exists []. by split_and!.
  - rewrite match_photos_snoc. simpl in IH.
    set (st := match_photos settlements photos) in *.
    destruct IH as (kept & Hsub & Hall & Hwritten).
    destruct (match_step_cases settlements st ph)
      as [[Hm ->]|[(nm & Hm & Hin & ->)|(nm & Hm & Hnin & ->)]]; simpl.
    + exists kept. split_and!; [by apply sublist_inserts_r|done..].
    + exists kept. split_and!; [by apply sublist_inserts_r|done..].
    + exists (kept ++ [ph]). split_and!.
      * by apply sublist_app.
      * apply Forall2_app; [done|]. by repeat constructor.
      * by rewrite fmap_app, Hwritten.
Qed.

Lemma visited_photo_paths settlements kept vis :
  Forall2 (λ ph e, matched_name settlements ph = Some (v_name e) ∧
                   e = visited_entry_of ph (v_name e)) kept vis →
  v_photo <$> vis = (λ f, "photos/" +:+ f)%string <$> (out_name <$> kept).
Proof.
  clear float_of_rational strptime.
  induction 1 as [|ph e kept vis [_ He] _ IH]; [done|].
  rewrite !fmap_cons, IH. by rewrite He.
Qed.

(** X19. The visited entries follow the order of the deduplicated photos,
    and exactly one file is written per entry, in the same order, under
    the name the entry's [photo] path gives; a dropped photo writes no
    file. *)
Theorem one_file_per_visited_entry raw settlements today :
  ∃ reps out kept,
    deduplicate raw = Ok reps ∧
    build raw settlements today = Ok out ∧
    kept `sublist_of` reps ∧
    Forall2 (λ ph e, matched_name settlements ph = Some (v_name e) ∧
                     e = visited_entry_of ph (v_name e))
            kept (data_visited (out_data out)) ∧
    out_photos out = out_name <$> kept ∧
    v_photo <$> data_visited (out_data out) =
      (λ f, "photos/" +:+ f)%string <$> out_photos out.
Proof.
  destruct (build_total raw settlements today) as (reps & Hreps & ->).
  destruct (match_photos_kept settlements reps) as (kept & Hsub & Hall & Hw).
  exists reps. eexists. exists kept. simpl.
  split_and!; [done..|]. rewrite Hw. by eapply visited_photo_paths.
Qed.

Lemma string_length_app (s t : string) :
  String.length (s +:+ t) = (String.length s + String.length t)%nat.
Proof. induction s as [|c s IH]; simpl; [done|]. by rewrite IH. Qed.

Lemma string_app_inj_r (t s1 s2 : string) : s1 +:+ t = s2 +:+ t → s1 = s2.
Proof.
  revert s2. induction s1 as [|c s1 IH]; intros [|c' s2] Heq; simpl in *.
  - done.
  - apply (f_equal String.length) in Heq. simpl in Heq.
    rewrite !string_length_app in Heq. simpl in Heq. lia.
  - apply (f_equal String.length) in Heq. simpl in Heq.
    rewrite !string_length_app in Heq. simpl in Heq. lia.
  - injection Heq as -> Heq. f_equal. by apply IH.
Qed.

Lemma NoDup_submseteq_inv {A : Type} (l k : list A) :
  l ⊆+ k → NoDup k → NoDup l.
Proof.
  intros (k' & Hk)%submseteq_Permutation Hnodup. rewrite Hk in Hnodup.
  by apply NoDup_app in Hnodup as [? _].
Qed.

(** X20. When the loaded photos have pairwise different stems, no output
    file is written twice. *)
Theorem output_files_distinct raw settlements today :
  NoDup (path <$> raw) →
  ∃ out, build raw settlements today = Ok out ∧ NoDup (out_photos out).
Proof.
  intros Hnodup.
  destruct (build_total raw settlements today) as (reps & Hreps & ->).
  eexists. split; [done|]. simpl.
  destruct (match_photos_kept settlements reps) as (kept & Hsub & _ & ->).
  destruct (deduplicate_sub raw) as (reps' & Hreps' & Hsubm & _).
  assert (reps' = reps) as -> by congruence.
  assert (NoDup (path <$> kept)) as Hkept.
  { apply (NoDup_submseteq_inv _ (path <$> raw)); [|done].
    apply fmap_submseteq. etrans; [by apply sublist_submseteq|done]. }
  unfold out_name. rewrite (list_fmap_compose path (λ p, p +:+ ".jpg")%string).
  apply NoDup_fmap_2; [|done]. intros s1 s2. apply string_app_inj_r.
Qed.

(** X21. An entry's date is null exactly when its photo carries the
    sentinel timestamp; otherwise it is the photo's timestamp, formatted. *)
Theorem visited_date_from_photo raw settlements today :
  ∃ reps out,
    deduplicate raw = Ok reps ∧
    build raw settlements today = Ok out ∧
    ∀ e, e ∈ data_visited (out_data out) →
      ∃ ph, ph ∈ reps ∧ e = visited_entry_of ph (v_name e) ∧
            (v_date e = None ↔ taken ph = datetime_min) ∧
            (taken ph ≠ datetime_min →
             v_date e = Some (strftime (taken ph))).
Proof.
  clear float_of_rational strptime.
  destruct (build_total raw settlements today) as (reps & Hreps & ->).
  exists reps. eexists. split_and!; [done..|]. simpl. intros e He.
  destruct (match_photos_inv settlements reps) as (_ & _ & _ & Hentries & _).
  destruct (Hentries e He) as (ph & Hph & _ & Heq).
  exists ph. split_and!; [done|done|..]; rewrite Heq; simpl;
    case_bool_decide; naive_solver.
Qed.

Lemma match_photos_unmatched settlements photos :
  Forall (λ ph, matched_name settlements ph = None) photos →
  match_photos settlements photos = match_init.
Proof.
  clear float_of_rational strptime.
  induction photos as [|ph photos IH] using rev_ind; [done|].
  intros [Hall Hph]%Forall_app. rewrite Forall_singleton in Hph.
  rewrite match_photos_snoc, (IH Hall).
  destruct (match_step_cases settlements match_init ph)
    as [[_ ->]|[(nm & Hm & _)|(nm & Hm & _)]]; [done|congruence..].
Qed.

Lemma unvisited_of_empty settlements :
  unvisited_of ∅ settlements = unvisited_entry_of <$> settlements.
Proof.
  clear float_of_rational strptime strftime.
  unfold unvisited_of. f_equal.
  induction settlements as [|s settlements IH]; [done|].
  rewrite filter_cons_True by set_solver. by rewrite IH.
Qed.

(** X22. When every loaded photo is farther than 1.5 km from every
    settlement (in particular when there are no photos), nothing is
    visited, no file is written, and every settlement is listed as
    unvisited, in gazetteer order. *)
Theorem build_without_matches raw settlements today :
  (∀ ph s, ph ∈ raw → s ∈ settlements →
     MATCH_RADIUS_KM < dist_to (coords ph) s) →
  ∃ out,
    build raw settlements today = Ok out ∧
    data_visited (out_data out) = [] ∧
    data_unvisited (out_data out) = unvisited_entry_of <$> settlements ∧
    out_photos out = [] ∧
    stats_visited (data_stats (out_data out)) = 0%nat ∧
    stats_total (data_stats (out_data out)) = length settlements.
Proof.
  intros Hfar.
  destruct (build_total raw settlements today) as (reps & Hreps & ->).
  destruct (deduplicate_sub raw) as (reps' & Hreps' & Hsub & _).
  assert (reps' = reps) as -> by congruence.
  rewrite match_photos_unmatched.
  - eexists. split; [done|]. simpl. rewrite unvisited_of_empty.
    split_and!; try done. by rewrite length_fmap.
  - apply Forall_forall. intros ph Hph. unfold matched_name.
    destruct (nearest_settlement_cases (coords ph) settlements)
      as [[-> _]|(i & s & _ & [Hi _] & Hle)]; [done|].
    assert (MATCH_RADIUS_KM < dist_to (coords ph) s); [|lra].
    apply Hfar; [by eapply elem_of_submseteq|].
    apply list_elem_of_lookup. eauto.
Qed.

(** X23. For every gazetteer, names repeated or not, the total in the
    statistics never exceeds the gazetteer's size, and the visited count
    exceeds neither the total nor the number of loaded photos. *)
Theorem stats_bounds raw settlements today :
  ∃ out,
    build raw settlements today = Ok out ∧
    (stats_total (data_stats (out_data out)) ≤ length settlements)%nat ∧
    (stats_visited (data_stats (out_data out)) ≤
       stats_total (data_stats (out_data out)))%nat ∧
    (stats_visited (data_stats (out_data out)) ≤ length raw)%nat.
Proof.
  destruct (build_total raw settlements today) as (reps & Hreps & ->).
  eexists. split; [done|]. simpl.
  set (st := match_photos settlements reps).
  destruct (match_photos_inv settlements reps)
    as (Hnames & Hnodup & Hclaimed & _). fold st in Hnames, Hnodup, Hclaimed.
  split_and!.
  - assert (length (visited st) ≤
            length (filter (λ s, name s ∈ visited_names st) settlements))%nat
      as Hle.
    { rewrite <- (length_fmap v_name), <- (length_fmap name (filter _ _)).
      apply submseteq_length, NoDup_submseteq; [done|].
      intros n Hn%Hnames. pose proof Hn as (ph & _ & Hm)%Hclaimed.
      apply matched_name_in_gazetteer in Hm as (s & Hs & <-).
      apply list_elem_of_fmap_2. by apply list_elem_of_filter. }
    unfold unvisited_of. rewrite length_fmap.
    pose proof (Permutation_length
                  (filter_app_complement
                     (λ s, name s ∈ visited_names st) settlements)) as Hlen.
    rewrite length_app in Hlen. lia.
  - lia.
  - destruct (match_photos_kept settlements reps) as (kept & Hsub & Hall & _).
    destruct (deduplicate_sub raw) as (reps' & Hreps' & Hsubm & _).
    assert (reps' = reps) as -> by congruence.
    apply Forall2_length in Hall. apply sublist_length in Hsub.
    apply submseteq_length in Hsubm. fold st in Hall. lia.
Qed.

(** X24. The unvisited list keeps the gazetteer's order, and a settlement
    is on it exactly when no visited entry has its name. *)
Theorem unvisited_in_gazetteer_order raw settlements today :
  ∃ out rest,
    build raw settlements today = Ok out ∧
    rest `sublist_of` settlements ∧
    data_unvisited (out_data out) = unvisited_entry_of <$> rest ∧
    ∀ s, s ∈ rest ↔
         s ∈ settlements ∧ name s ∉ v_name <$> data_visited (out_data out).
Proof.
  clear float_of_rational strptime.
  destruct (build_total raw settlements today) as (reps & Hreps & ->).
  set (st := match_photos settlements reps).
  eexists. exists (filter (λ s, name s ∉ visited_names st) settlements).
  split_and!; [done|apply sublist_filter|done|]. simpl. fold st.
  destruct (match_photos_inv settlements reps) as (Hnames & _).
  fold st in Hnames. intros s. rewrite list_elem_of_filter, Hnames. tauto.
Qed.

Lemma insert_by_stable {A : Type} (key : A → Q) (k : Q) x l :
  filter (λ y, key y == k) (insert_by key x l) =
  filter (λ y, key y == k) (x :: l).
Proof.
  clear float_of_rational geodesic strptime strftime.
  induction l as [|y l IH]; simpl; [done|].
  destruct (Qle_bool (key x) (key y)) eqn:E; [done|].
  apply Qle_bool_gt in E. rewrite filter_cons, IH, !filter_cons.
  destruct (decide (key x == k)) as [Hx|Hx]; [|done].
  destruct (decide (key y == k)) as [Hy|Hy]; [|done].
  lra.
Qed.

Lemma sorted_stable {A : Type} (key : A → Q) (k : Q) l :
  filter (λ y, key y == k) (sorted key l) = filter (λ y, key y == k) l.
Proof.
  clear float_of_rational geodesic strptime strftime.
  induction l as [|x l IH]; simpl; [done|].
  by rewrite insert_by_stable, !filter_cons, IH.
Qed.

Lemma filter_csv_rows (k : Q) (l : list unvisited_entry) :
  filter (λ row : string * Q, row.2 == k) (csv_row <$> l) =
  csv_row <$> filter (λ u, u_distance_km u == k) l.
Proof.
  clear float_of_rational geodesic strptime strftime.
  induction l as [|u l IH]; [done|].
  rewrite fmap_cons, !filter_cons, IH. simpl.
  by destruct (decide (u_distance_km u == k)).
Qed.

(** X25. The CSV sort is stable: rows with the same distance keep the
    order their settlements have in the gazetteer. *)
Theorem csv_ties_keep_gazetteer_order raw settlements today (k : Q) :
  ∃ out,
    build raw settlements today = Ok out ∧
    filter (λ row, row.2 == k) (out_csv out) =
    filter (λ row, row.2 == k)
      (csv_row <$> data_unvisited (out_data out)).
Proof.
  destruct (build_total raw settlements today) as (reps & Hreps & ->).
  eexists. split; [done|]. simpl.
  set (unv := unvisited_of _ settlements).
  rewrite !filter_csv_rows. f_equal.
  apply (sorted_stable u_distance_km k).
Qed.

(** ** The gazetteer fetch *)

Lemma settlement_of_element_cases el :
  (element_name el = None ∧ settlement_of_element el = Ok None) ∨
  (∃ nm la lo,
     element_name el = Some nm ∧ nm ≠ ""%string ∧
     el_lat el = Some la ∧ el_lon el = Some lo ∧
     settlement_of_element el =
       Ok (Some {| name := nm; lat := la; lon := lo;
                   place := default ""%string
                              (default ∅ (el_tags el) !! "place"%string) |})) ∨
  (lacks_position el ∧ settlement_of_element el = Raise KeyError).
Proof.
  clear float_of_rational geodesic strptime strftime.
  unfold lacks_position, element_name, settlement_of_element.
  destruct (default ∅ (el_tags el) !! "name"%string) as [nm|]; [|by left].
  case_bool_decide as Hnm; [|by left]. right.
  destruct (el_lat el) as [la|]; simpl; [|right; eauto].
  destruct (el_lon el) as [lo|]; simpl; [|right; eauto].
  left. by exists nm, la, lo.
Qed.

Lemma settlements_of_elements_spec acc elements :
  match settlements_of_elements acc elements with
  | Ok ss =>
      ∃ new, ss = acc ++ new ∧
        name <$> new = omap element_name elements ∧
        Forall (λ s, name s ≠ ""%string ∧
                     ∃ el, el ∈ elements ∧
                       element_name el = Some (name s) ∧
                       el_lat el = Some (lat s) ∧ el_lon el = Some (lon s) ∧
                       place s = default ""%string
                                   (default ∅ (el_tags el) !! "place"%string))
               new ∧
        Forall (λ el, ¬ lacks_position el) elements
  | Raise e => e = KeyError ∧ Exists lacks_position elements
  end.
Proof.
  clear float_of_rational geodesic strptime strftime.
  revert acc. induction elements as [|el elements IH]; intros acc; simpl.
  - exists []. by rewrite app_nil_r.
  - destruct (settlement_of_element_cases el)
      as [[Hn ->]|[(nm & la & lo & Hn & Hne & Hla & Hlo & ->)|[Hbad ->]]];
      simpl.
    + specialize (IH acc).
      destruct (settlements_of_elements acc elements) as [ss|e].
      * destruct IH as (new & -> & Hnames & Hall & Hgood).
        exists new. rewrite Hn. split_and!; [done|done| |].
        -- eapply Forall_impl; [exact Hall|]. simpl.
           intros s (? & el' & ? & ?). split; [done|]. exists el'.
           split; [by right|done].
        -- constructor; [|done]. intros [[? Hs] _]. congruence.
      * destruct IH as [-> Hex]. split; [done|]. by right.
    + set (s := {| name := nm |}). specialize (IH (acc ++ [s])).
      destruct (settlements_of_elements (acc ++ [s]) elements) as [ss|e].
      * destruct IH as (new & -> & Hnames & Hall & Hgood).
        exists (s :: new). rewrite Hn, <- app_assoc. simpl.
        split_and!; [done|f_equal; exact Hnames| |].
        -- constructor.
           ++ split; [done|]. exists el. split; [by left|done].
           ++ eapply Forall_impl; [exact Hall|]. simpl.
              intros s' (? & el' & ? & ?). split; [done|]. exists el'.
              split; [by right|done].
        -- constructor; [|done]. intros [_ [?|?]]; congruence.
      * destruct IH as [-> Hex]. split; [done|]. by right.
    + split; [done|]. by left.
Qed.

Lemma settlements_of_elements_ordered acc elements ss :
  settlements_of_elements acc elements = Ok ss →
  ∃ new, ss = acc ++ new ∧
    Forall2 (λ el s, name s ≠ ""%string ∧
                     element_name el = Some (name s) ∧
                     el_lat el = Some (lat s) ∧ el_lon el = Some (lon s) ∧
                     place s = default ""%string
                                 (default ∅ (el_tags el) !! "place"%string))
            (filter (λ el, is_Some (element_name el)) elements) new.
Proof.
  clear float_of_rational geodesic strptime strftime.
  revert acc. induction elements as [|el elements IH]; intros acc; simpl.
  - intros [= <-]. exists []. by rewrite app_nil_r.
  - destruct (settlement_of_element_cases el)
      as [[Hn ->]|[(nm & la & lo & Hn & Hne & Hla & Hlo & ->)|[Hbad ->]]];
      simpl; [| |done].
    + intros (new & -> & Hall)%IH. exists new. split; [done|].
      rewrite filter_cons_False; [done|]. rewrite Hn. by intros [? ?].
    + intros (new & -> & Hall)%IH. eexists (_ :: new).
      rewrite <- app_assoc. split; [done|].
      rewrite filter_cons_True by (by rewrite Hn). by constructor.
Qed.

(** X26. The fetched gazetteer is, in the order of the response, one
    settlement per element that has a non-empty [name] tag, with that
    element's name, coordinates and [place] tag (empty when absent);
    unnamed elements are dropped and names are not made unique. *)
Theorem fetched_settlements_follow_response elements ss :
  settlements_of_elements [] elements = Ok ss →
  name <$> ss = omap element_name elements ∧
  Forall2 (λ el s, name s ≠ ""%string ∧
                   element_name el = Some (name s) ∧
                   el_lat el = Some (lat s) ∧ el_lon el = Some (lon s) ∧
                   place s = default ""%string
                               (default ∅ (el_tags el) !! "place"%string))
          (filter (λ el, is_Some (element_name el)) elements) ss.
Proof.
  clear float_of_rational geodesic strptime strftime.
  intros Hss. split.
  - pose proof (settlements_of_elements_spec [] elements) as H.
    rewrite Hss in H. by destruct H as (new & -> & Hnames & _).
  - by apply settlements_of_elements_ordered in Hss as (new & -> & Hall).
Qed.

(** X27. Building the gazetteer fails exactly when some named element has
    no latitude or no longitude, and then with a KeyError; unnamed
    elements never make it fail. *)
Theorem fetched_settlements_fail_on_missing_position elements :
  (settlements_of_elements [] elements = Raise KeyError ↔
   Exists lacks_position elements) ∧
  (∀ e, settlements_of_elements [] elements = Raise e → e = KeyError).
Proof.
  clear float_of_rational geodesic strptime strftime.
  pose proof (settlements_of_elements_spec [] elements) as H.
  destruct (settlements_of_elements [] elements) as [ss|e].
  - destruct H as (new & _ & _ & _ & Hgood). split; [|done]. split; [done|].
    intros Hex. apply Exists_exists in Hex as (el & Hel & Hbad).
    rewrite Forall_forall in Hgood. by destruct (Hgood el Hel).
  - destruct H as [-> Hex]. split; [done|]. by intros e [= <-].
Qed.

End Pipeline.

(** ** The pipeline on the fixtures *)

Lemma grid_geodesic_self p : km (grid_geodesic p p) == 0.
Proof.
  change (km (grid_geodesic p p))
    with (111 * (Qabs (p.1 - p.1) + Qabs (p.2 - p.2))).
  assert (∀ x, Qabs (x - x) == 0) as Hzero.
  { intros x. apply Qabs_case; intros _; ring. }
  pose proof (Hzero p.1). pose proof (Hzero p.2). lra.
Qed.

Lemma grid_geodesic_nonneg p q : 0 <= km (grid_geodesic p q).
Proof.
  change (km (grid_geodesic p q))
    with (111 * (Qabs (p.1 - q.1) + Qabs (p.2 - q.2))).
  pose proof (Qabs_nonneg (p.1 - q.1)). pose proof (Qabs_nonneg (p.2 - q.2)).
  lra.
Qed.

Example three_shots_one_record :
  deduplicate grid_geodesic
    [Photo "a" (52, 1) 1%N; Photo "b" (52, 1) 2%N; Photo "c" (52, 1) 3%N]
  = Ok [Photo "c" (52, 1) 3%N].
Proof. vm_compute. reflexivity. Qed.

(** Equal timestamps: the first of the two stays the representative. *)
Example equal_timestamps_first_wins :
  deduplicate grid_geodesic
    [Photo "a" (52, 1) 4%N; Photo "b" (52, 1) 4%N; Photo "c" (52, 1) 2%N]
  = Ok [Photo "a" (52, 1) 4%N].
Proof. vm_compute. reflexivity. Qed.

(** A chain: the third photo is 60 m from the second but 30 m from the
    first, the cluster's first member, and joins. *)
Example membership_is_tested_against_first_member :
  cluster_photos grid_geodesic []
    [Photo "a" (52, 1) 1%N;
     Photo "b" (52 + (30 # 111000), 1) 2%N;
     Photo "c" (52 - (30 # 111000), 1) 3%N]
  = Ok [[Photo "a" (52, 1) 1%N;
         Photo "b" (52 + (30 # 111000), 1) 2%N;
         Photo "c" (52 - (30 # 111000), 1) 3%N]].
Proof. vm_compute. reflexivity. Qed.

(** Exactly 1.5 km away is still a match. *)
Example boundary_is_matched :
  nearest_settlement grid_geodesic (52 + (15 # 1110), 1) [acton; bures] =
    (Some acton, Some (Fin (dist_to grid_geodesic (52 + (15 # 1110), 1) acton)))
  ∧ dist_to grid_geodesic (52 + (15 # 1110), 1) acton == MATCH_RADIUS_KM.
Proof. split; vm_compute; reflexivity. Qed.

(** Half-way between two settlements 1 km apart: the earlier one wins. *)
Example tie_goes_to_first :
  let a := Settlement "A" 52 1 "village" in
  let b := Settlement "B" (52 + (1 # 111)) 1 "village" in
  nearest_settlement grid_geodesic (52 + (1 # 222), 1) [a; b] =
    (Some a, Some (Fin (dist_to grid_geodesic (52 + (1 # 222), 1) a)))
  ∧ dist_to grid_geodesic (52 + (1 # 222), 1) a ==
    dist_to grid_geodesic (52 + (1 # 222), 1) b.
Proof. split; vm_compute; reflexivity. Qed.

(** A photo 111 m north of Acton: the entry keeps the photo's latitude. *)
Example entry_keeps_photo_position :
  data_visited <$>
    (out_data <$>
       build grid_geodesic fixed_strftime [by_acton] [acton] "2024-06-02") =
    Ok [VisitedEntry "Acton" (52 + (1 # 1000)) 1 "photos/IMG_2.jpg"
          (Some "2024-06-01"%string)].
Proof. vm_compute. reflexivity. Qed.

Example unvisited_sorted_by_distance :
  out_csv <$>
    build grid_geodesic fixed_strftime [] [bures; acton; acton_again]
      "2024-06-02" =
    Ok [("Acton"%string, 371 # 10); ("Bures"%string, 958 # 10);
        ("Acton"%string, 2068 # 10)].
Proof. vm_compute. reflexivity. Qed.

Example acton_end_to_end :
  build grid_geodesic fixed_strftime [at_acton] [acton] "2024-06-02" =
    Ok {| out_data :=
            {| data_visited :=
                 [VisitedEntry "Acton" 52 1 "photos/IMG_1.jpg"
                    (Some "2024-06-01"%string)];
               data_unvisited := [];
               data_stats := Stats 1 1 "2024-06-02" |};
          out_csv := [];
          out_photos := ["IMG_1.jpg"%string] |}.
Proof. vm_compute. reflexivity. Qed.

(** Two gazetteer entries share the name "Acton": one photo at the first
    claims the name, both entries drop out of the unvisited list, and
    the two lists hold one entry for a gazetteer of two. *)
Lemma build_count_with_shared_name :
  ∃ out,
    build grid_geodesic fixed_strftime [at_acton] [acton; acton_again]
      "2024-06-02" = Ok out ∧
    length (data_visited (out_data out)) = 1%nat ∧
    length (data_unvisited (out_data out)) = 0%nat ∧
    (length (data_visited (out_data out)) +
     length (data_unvisited (out_data out)))%nat
      ≠ length [acton; acton_again].
Proof.
  eexists. split; [vm_compute; reflexivity|]. simpl. split_and!; [done|done|lia].
Qed.

Lemma build_partition_witness :
  ∃ out,
    build grid_geodesic fixed_strftime [at_acton; by_acton; far_away]
      [acton; bures] "2024-06-02" = Ok out ∧
    let vis := data_visited (out_data out) in
    let unv := data_unvisited (out_data out) in
    (length vis + length unv = length [acton; bures])%nat ∧
    (∀ n, n ∈ v_name <$> vis → n ∉ u_name <$> unv) ∧
    (∀ n, n ∈ (v_name <$> vis) ++ (u_name <$> unv) ↔
          n ∈ name <$> [acton; bures]) ∧
    (stats_visited (data_stats (out_data out)) + length unv =
       stats_total (data_stats (out_data out)))%nat.
Proof.
  destruct (build_partition grid_geodesic fixed_strftime
              [at_acton; by_acton; far_away] [acton; bures] "2024-06-02")
    as (out & Hbuild & Hcount & Hrest).
  exists out. split; [exact Hbuild|]. split; [|exact Hrest].
  apply Hcount. apply (bool_decide_unpack _). vm_compute. reflexivity.
Defined.

Lemma nearest_settlement_witness :
  ∃ s', nearest_settlement grid_geodesic (53, 1) [acton; bures] =
          (Some s', Some (Fin (dist_to grid_geodesic (53, 1) s'))) ∧
        dist_to grid_geodesic (53, 1) s' == 0 ∧
        ((∀ j s'', (j < 1)%nat → [acton; bures] !! j = Some s'' →
            ¬ dist_to grid_geodesic (53, 1) s'' == 0) → s' = bures).
Proof.
  apply (nearest_settlement_spec grid_geodesic (53, 1) [acton; bures]).
  - reflexivity.
  - reflexivity.
  - apply grid_geodesic_self.
  - apply grid_geodesic_nonneg.
Defined.

Lemma deduplicate_witness :
  deduplicate grid_geodesic [at_acton; at_bures_undated] =
    Ok [at_acton; at_bures_undated].
Proof.
  destruct (deduplicate_clusters_first_member grid_geodesic
              [at_acton; at_bures_undated])
    as (clusters & reps & _ & _ & _ & _ & Hfar).
  apply Hfar. vm_compute. reflexivity.
Defined.

Lemma representative_witness :
  ∃ clusters reps,
    cluster_photos grid_geodesic []
      [at_bures_undated; at_acton; again_at_acton; at_acton] = Ok clusters ∧
    deduplicate grid_geodesic
      [at_bures_undated; at_acton; again_at_acton; at_acton] = Ok reps ∧
    concat clusters ≡ₚ [at_bures_undated; at_acton; again_at_acton; at_acton] ∧
    Forall2 (λ c r, c ≠ [] ∧ py_max taken c = Ok r ∧ latest_first c r ∧
                    (∀ x, x ∈ c → taken x ≠ datetime_min →
                          taken r ≠ datetime_min))
            clusters reps ∧
    (∀ x : photo, (datetime_min ≤ taken x)%N) ∧
    (∀ img exif,
       or_else (img_exif img) (img_legacy_exif img) = Ok exif →
       (∀ tag val, tag ∈ [36867; 36868; 306]%Z → exif !! tag = Some val →
          val = ""%string ∨ no_strptime val = Raise ValueError) →
       extract_datetime_of no_strptime img = Ok datetime_min).
Proof.
  exact (representative_is_latest grid_geodesic no_strptime
           [at_bures_undated; at_acton; again_at_acton; at_acton]).
Defined.

Example representatives_on_fixture :
  deduplicate grid_geodesic
    [at_bures_undated; at_acton; again_at_acton; at_acton] =
    Ok [at_bures_undated; again_at_acton].
Proof. vm_compute. reflexivity. Qed.

Lemma first_claim_witness :
  match_photos grid_geodesic fixed_strftime [acton; bures]
    ([at_acton] ++ [by_acton]) =
  match_photos grid_geodesic fixed_strftime [acton; bures] [at_acton].
Proof.
  destruct (first_claim_wins grid_geodesic fixed_strftime [acton; bures]
              [at_acton; by_acton]) as (_ & _ & Hfirst).
  apply (Hfirst [at_acton] by_acton [] "Acton"%string).
  - reflexivity.
  - vm_compute. reflexivity.
  - exists at_acton. split; [apply list_elem_of_here|vm_compute; reflexivity].
Defined.

Lemma dms_to_decimal_witness :
  ∃ x, _dms_to_decimal exact_quotient
         [VRational 33 1; VTuple [51; 1]; VNum (6 # 10)] "S" = Ok x ∧
       x = - (inject_Z 33 / inject_Z 1 + 51 / 1 / 60 + (6 # 10) / 3600) ∧
       x <= 0.
Proof.
  destruct (dms_to_decimal_spec exact_quotient
              (VRational 33 1) (VTuple [51; 1]) (VNum (6 # 10)) "S"
              (inject_Z 33 / inject_Z 1) (51 / 1) (6 # 10)
              eq_refl eq_refl eq_refl)
    as (x & Hx & Hneg & _ & Hsign & _).
  exists x. split_and!.
  - exact Hx.
  - apply Hneg. by left.
  - apply Hsign; [vm_compute; discriminate..|by left].
Defined.

(** ** The loader and the fetch on the fixtures *)

Example load_directory :
  path <$> load_photos exact_quotient no_strptime
             (Some [notes_file; acton_file; broken_file]) =
    ["IMG_1"%string] ∧
  Forall (λ ph, (coords ph).1 == 52 ∧ (coords ph).2 == 1 ∧
                taken ph = datetime_min)
    (load_photos exact_quotient no_strptime
       (Some [notes_file; acton_file; broken_file])).
Proof. split; [vm_compute; reflexivity|]. by repeat constructor. Qed.

Example same_stem_same_output_file :
  out_name (Photo "IMG_1" (52, 1) 0%N) = out_name (Photo "IMG_1" (53, 1) 0%N).
Proof. reflexivity. Qed.

Lemma fixture_photos_apart :
  each_far_from_earlier grid_geodesic [at_acton; at_bures_undated].
Proof.
  intros earlier q later Heq.
  destruct earlier as [|p [|p' earlier]]; simpl in Heq.
  - constructor.
  - injection Heq as <- <- _. repeat constructor.
    unfold near. apply Qlt_not_le. reflexivity.
  - injection Heq as _ _ Heq. by destruct earlier.
Qed.

Lemma toy_strptime_value_errors val e :
  toy_strptime val = Raise e → e = ValueError.
Proof. unfold toy_strptime. case_bool_decide; [done|]. by intros [= <-]. Qed.

Lemma dms_needs_three_witness :
  ∃ e, _dms_to_decimal exact_quotient [VNum 52; VNum 0] "N" = Raise e ∧
       ((∀ v, v ∈ [VNum 52; VNum 0] → ∃ x, _to_float exact_quotient v = Ok x) →
        e = IndexError).
Proof.
  apply (dms_needs_three_components exact_quotient). simpl. lia.
Defined.

Lemma dms_hemisphere_witness :
  _dms_to_decimal exact_quotient
    [VTuple [52; 1]; VTuple [14; 1]; VTuple [78; 10]] "S" =
  Qopp <$> _dms_to_decimal exact_quotient
    [VTuple [52; 1]; VTuple [14; 1]; VTuple [78; 10]] "N".
Proof.
  apply dms_hemisphere_flips_sign; [by left|discriminate|discriminate].
Defined.

Lemma extract_gps_missing_witness :
  extract_gps_from exact_quotient no_latitude_ifd = Ok None.
Proof.
  apply (extract_gps_missing_coordinate exact_quotient no_latitude_ifd).
  reflexivity.
Defined.

Lemma extract_gps_error_witness :
  IndexError = IndexError ∧
  ∃ k dms, (k = 2%Z ∨ k = 4%Z) ∧ gps_seqs short_ifd !! k = Some dms ∧
           (length dms < 3)%nat.
Proof.
  apply (extract_gps_raises_only_index_error exact_quotient short_ifd).
  - intros k dms Hk. simpl in Hk.
    apply lookup_insert_Some in Hk as [[_ <-]|[_ Hk]]; [by repeat constructor|].
    apply lookup_singleton_Some in Hk as [_ <-]. by repeat constructor.
  - vm_compute. reflexivity.
Defined.

Lemma extract_gps_short_witness :
  extract_gps_from exact_quotient short_ifd = Raise IndexError.
Proof.
  apply (extract_gps_short_latitude_raises exact_quotient short_ifd
           [VNum 52; VNum 0]).
  - reflexivity.
  - simpl. lia.
  - simpl. lia.
  - intros v Hv. apply elem_of_cons in Hv as [->|Hv]; [by eexists|].
    apply list_elem_of_singleton in Hv as ->. by eexists.
Defined.

Lemma extract_gps_default_witness :
  extract_gps_from exact_quotient (GpsIfd ∅ (gps_seqs acton_ifd)) =
  extract_gps_from exact_quotient
    (GpsIfd (<[1%Z := "N"%string]> (<[3%Z := "E"%string]> ∅))
            (gps_seqs acton_ifd)).
Proof. apply extract_gps_default_refs; reflexivity. Defined.

Lemma extract_datetime_priority_witness :
  extract_datetime toy_strptime dated_exif = Ok 5%N.
Proof.
  apply (extract_datetime_priority toy_strptime dated_exif
           [36867%Z] 36868%Z [306%Z] "2024:06:01 10:00:00").
  - reflexivity.
  - constructor; [|constructor]. unfold no_timestamp. right. reflexivity.
  - reflexivity.
  - discriminate.
  - reflexivity.
Defined.

Lemma extract_datetime_fallback_witness :
  match extract_datetime_of toy_strptime dated_image with
  | Ok t =>
      ∃ exif,
        or_else (img_exif dated_image) (img_legacy_exif dated_image) = Ok exif ∧
        (t = datetime_min ∨
         ∃ tag val, tag ∈ [36867; 36868; 306]%Z ∧ exif !! tag = Some val ∧
                    val ≠ ""%string ∧ toy_strptime val = Ok t)
  | Raise e =>
      (∃ e0, img_exif dated_image = Raise e0) ∧
      img_legacy_exif dated_image = Raise e
  end.
Proof.
  apply (extract_datetime_raises_only_from_fallback toy_strptime dated_image).
  apply toy_strptime_value_errors.
Defined.

Example fallback_exif_is_read :
  extract_datetime_of toy_strptime dated_image = Ok 5%N.
Proof. vm_compute. reflexivity. Qed.

Lemma load_photos_skips_witness :
  load_photos exact_quotient no_strptime (Some [broken_file; acton_file]) =
  load_photos exact_quotient no_strptime (Some [acton_file]).
Proof.
  apply (load_photos_skips_bad_files exact_quotient no_strptime).
  right. right. exists ValueError. reflexivity.
Defined.

Lemma deduplicate_selects_witness :
  [again_at_acton] ⊆+ [at_acton; again_at_acton] ∧
  (length [again_at_acton] ≤ length [at_acton; again_at_acton])%nat ∧
  ([at_acton; again_at_acton] ≠ [] → [again_at_acton] ≠ []).
Proof.
  apply (deduplicate_selects grid_geodesic). vm_compute. reflexivity.
Defined.

Lemma deduplicate_one_place_witness :
  ∃ r, deduplicate grid_geodesic [at_acton; again_at_acton] = Ok [r] ∧
       latest_first [at_acton; again_at_acton] r.
Proof.
  apply deduplicate_one_place. repeat constructor.
  unfold near. apply Qle_bool_iff. reflexivity.
Defined.

Lemma deduplicate_apart_witness :
  deduplicate grid_geodesic [at_acton; at_bures_undated] =
    Ok [at_acton; at_bures_undated].
Proof. apply deduplicate_apart_is_identity, fixture_photos_apart. Defined.

Lemma nearest_order_witness :
  (nearest_settlement grid_geodesic (53, 1) [acton; bures] = (None, None) ↔
   nearest_settlement grid_geodesic (53, 1) [bures; acton] = (None, None)) ∧
  (∀ s d s' d',
     nearest_settlement grid_geodesic (53, 1) [acton; bures] =
       (Some s, Some (Fin d)) →
     nearest_settlement grid_geodesic (53, 1) [bures; acton] =
       (Some s', Some (Fin d')) →
     d == d' ∧
     ((∀ x, x ∈ [acton; bures] → dist_to grid_geodesic (53, 1) x <= d →
         x = s) → s' = s)).
Proof.
  apply nearest_settlement_order_independent. apply Permutation_swap.
Defined.

Lemma nearest_append_witness :
  ∃ s' d',
    nearest_settlement grid_geodesic (52, 1) ([acton] ++ [bures]) =
      (Some s', Some (Fin d')) ∧
    d' <= dist_to grid_geodesic (52, 1) acton ∧
    ((∀ x, x ∈ [bures] →
        dist_to grid_geodesic (52, 1) acton <= dist_to grid_geodesic (52, 1) x) →
     s' = acton ∧ d' = dist_to grid_geodesic (52, 1) acton).
Proof. apply nearest_settlement_append. reflexivity. Defined.

Lemma output_files_distinct_witness :
  ∃ out,
    build grid_geodesic fixed_strftime [at_acton; at_bures_undated]
      [acton; bures] "2024-06-02" = Ok out ∧
    NoDup (out_photos out).
Proof.
  apply output_files_distinct.
  apply (bool_decide_unpack _). vm_compute. reflexivity.
Defined.

Lemma build_without_matches_witness :
  ∃ out,
    build grid_geodesic fixed_strftime [far_away] [acton; bures]
      "2024-06-02" = Ok out ∧
    data_visited (out_data out) = [] ∧
    data_unvisited (out_data out) =
      unvisited_entry_of grid_geodesic <$> [acton; bures] ∧
    out_photos out = [] ∧
    stats_visited (data_stats (out_data out)) = 0%nat ∧
    stats_total (data_stats (out_data out)) = length [acton; bures].
Proof.
  apply build_without_matches. intros ph s Hph Hs.
  apply list_elem_of_singleton in Hph as ->.
  apply elem_of_cons in Hs as [->|Hs]; [reflexivity|].
  apply list_elem_of_singleton in Hs as ->. reflexivity.
Defined.

Lemma fetched_settlements_witness :
  name <$> [Settlement "Acton" 52 1 "village"; Settlement "Bures" 53 1 ""] =
    omap element_name response ∧
  Forall2 (λ el s, name s ≠ ""%string ∧
                   element_name el = Some (name s) ∧
                   el_lat el = Some (lat s) ∧ el_lon el = Some (lon s) ∧
                   place s = default ""%string
                               (default ∅ (el_tags el) !! "place"%string))
          (filter (λ el, is_Some (element_name el)) response)
          [Settlement "Acton" 52 1 "village"; Settlement "Bures" 53 1 ""].
Proof.
  apply fetched_settlements_follow_response. vm_compute. reflexivity.
Defined.

(** Two elements of one name stay two settlements, each at its own
    position. *)
Example same_name_elements_kept_apart :
  settlements_of_elements []
    [ Element (Some {[ "name"%string := "Acton"%string ]}) (Some 1) (Some 1);
      Element (Some {[ "name"%string := "Acton"%string ]}) (Some 2) (Some 2) ] =
    Ok [Settlement "Acton" 1 1 ""; Settlement "Acton" 2 2 ""].
Proof. vm_compute. reflexivity. Qed.
